(** * fastproxy: the URI helper ([uri/uri.go]) and the TCP dialer
      ([transport/tcpdialer.go]), embedded and verified.

    Go byte slices and Go strings are both modelled by their contents, a
    list of 8-bit characters.  Go's [int] results that use [-1] for "not
    found" are kept as [Z].  Slice expressions whose bounds the source
    guarantees are modelled by [take]/[drop]. *)

From Stdlib Require Import ZArith Ascii String Lia.
From stdpp Require Import base tactics option list strings gmap.

Local Open Scope Z_scope.

Abbreviation bytes := (list ascii).

(** [B "literal"]: the bytes of a Go string or byte-slice literal. *)
Definition B (s : string) : bytes := list_ascii_of_string s.

(** ** The parts of Go's standard library the two packages call *)
Module Go.

(** [len(s)] *)
Definition len {A} (s : list A) : Z := Z.of_nat (length s).

(** [s[i:]], [s[:j]] and [s[i]] (the source only uses indices in range). *)
Definition from (s : bytes) (i : Z) : bytes := drop (Z.to_nat i) s.
Definition upto (s : bytes) (j : Z) : bytes := take (Z.to_nat j) s.
Definition at_ (s : bytes) (i : Z) : ascii := nth (Z.to_nat i) s zero.

(** Byte comparison [a <= b]. *)
Definition le (a b : ascii) : bool := (N_of_ascii a <=? N_of_ascii b)%N.

(** [bytes.IndexByte(s, c)]: index of the first [c] in [s], or [-1]. *)
Fixpoint IndexByte (s : bytes) (c : ascii) : Z :=
  match s with
  | [] => -1
  | x :: s' =>
      if bool_decide (x = c) then 0
      else let r := IndexByte s' c in if r <? 0 then -1 else r + 1
  end.

(** [strings.LastIndexByte(s, c)]: index of the last [c] in [s], or [-1]. *)
Fixpoint LastIndexByte (s : bytes) (c : ascii) : Z :=
  match s with
  | [] => -1
  | x :: s' =>
      let r := LastIndexByte s' c in
      if 0 <=? r then r + 1 else if bool_decide (x = c) then 0 else -1
  end.

(** [bytes.HasPrefix(s, p)] *)
Fixpoint HasPrefix (s p : bytes) {struct p} : bool :=
  match p, s with
  | [], _ => true
  | _ :: _, [] => false
  | y :: p', x :: s' => bool_decide (x = y) && HasPrefix s' p'
  end.

(** [bytes.Index(s, sep)]: index of the first instance of [sep] in [s],
    or [-1]; the empty [sep] is found at [0]. *)
Fixpoint Index (s sep : bytes) : Z :=
  if HasPrefix s sep then 0
  else match s with
       | [] => -1
       | _ :: s' => let r := Index s' sep in if r <? 0 then -1 else r + 1
       end.

(** [bytes.Replace(s, old, new, 1)]: a copy of [s] with the first instance
    of [old] replaced by [new] (an empty [old] matches at the beginning). *)
Definition Replace1 (s old new : bytes) : bytes :=
  let i := Index s old in
  if i <? 0 then s else upto s i ++ new ++ from s (i + len old).

(** [net.SplitHostPort(hostport)] ([net/ipsock.go]): [inl (host, port)], or
    [inr why] for an [*AddrError] with that reason. *)
Definition SplitHostPort (hostport : bytes) : (bytes * bytes) + bytes :=
  let missingPort := B "missing port in address" in
  let tooManyColons := B "too many colons in address" in
  let i := LastIndexByte hostport ":" in
  if i <? 0 then inr missingPort else
  let bracketed :=
    if bool_decide (at_ hostport 0 = "["%char) then
      let end_ := IndexByte hostport "]" in
      if end_ <? 0 then inr (B "missing ']' in address")
      else if end_ + 1 =? len hostport then inr missingPort
      else if end_ + 1 =? i then inl (upto (from hostport 1) (end_ - 1), 1, end_ + 1)
      else if bool_decide (at_ hostport (end_ + 1) = ":"%char) then inr tooManyColons
      else inr missingPort
    else
      let host := upto hostport i in
      if 0 <=? IndexByte host ":" then inr tooManyColons
      else inl (host, 0, 0) in
  match bracketed with
  | inr why => inr why
  | inl (host, j, k) =>
      if 0 <=? IndexByte (from hostport j) "[" then inr (B "unexpected '[' in address")
      else if 0 <=? IndexByte (from hostport k) "]" then inr (B "unexpected ']' in address")
      else inl (host, from hostport (i + 1))
  end.

(** [strconv.Atoi(s)]: an optional sign and decimal digits, in the range
    of a 64-bit [int]; [None] for [*NumError]. *)
Fixpoint digits (acc : Z) (s : bytes) : option Z :=
  match s with
  | [] => Some acc
  | c :: s' =>
      if le "0" c && le c "9"
      then digits (acc * 10 + (Z.of_N (N_of_ascii c) - 48)) s'
      else None
  end.

Definition Atoi (s : bytes) : option Z :=
  let '(neg, body) :=
    match s with
    | c :: r => if bool_decide (c = "-"%char) then (true, r)
                else if bool_decide (c = "+"%char) then (false, r)
                else (false, s)
    | [] => (false, s)
    end in
  match body with
  | [] => None
  | _ => match digits 0 body with
         | None => None
         | Some n => let v := if neg then - n else n in
                     if (- 2 ^ 63 <=? v) && (v <=? 2 ^ 63 - 1) then Some v else None
         end
  end.

(** Conversion to [uint32] and [uint32] increment. *)
Definition uint32 (x : Z) : Z := x mod 2 ^ 32.

End Go.

(** ** Package [uri] *)
Module uri.
Import Go.

Section WithParseIP.

(** [net.IP] and [net.ParseIP] are left abstract: the address bytes play no
    part in what is proved, only whether the field is [nil]. *)
Variable IP : Type.
Variable ParseIP : bytes -> option IP.

(** [func (ip IP) String() string], abstract as well. *)
Variable IPString : IP -> bytes.

Record HostInfo := mkHostInfo {
  domain : bytes;
  ip : option IP;
  port : bytes;
  hostWithPort : bytes;
  targetWithPort : bytes }.

Record URI := mkURI {
  isConnect : bool;
  full : bytes;
  scheme : bytes;
  host : bytes;
  path : bytes;
  queries : bytes;
  fragments : bytes;
  hostInfo : HostInfo;
  pathWithQueryFragment : bytes;
  pathWithQueryFragmentParsed : bool }.

(** Field assignments [uri.f = v]. *)
Definition set_isConnect (u : URI) v := mkURI v (full u) (scheme u) (host u) (path u) (queries u) (fragments u) (hostInfo u) (pathWithQueryFragment u) (pathWithQueryFragmentParsed u).
Definition set_full (u : URI) v := mkURI (isConnect u) v (scheme u) (host u) (path u) (queries u) (fragments u) (hostInfo u) (pathWithQueryFragment u) (pathWithQueryFragmentParsed u).
Definition set_scheme (u : URI) v := mkURI (isConnect u) (full u) v (host u) (path u) (queries u) (fragments u) (hostInfo u) (pathWithQueryFragment u) (pathWithQueryFragmentParsed u).
Definition set_host (u : URI) v := mkURI (isConnect u) (full u) (scheme u) v (path u) (queries u) (fragments u) (hostInfo u) (pathWithQueryFragment u) (pathWithQueryFragmentParsed u).
Definition set_path (u : URI) v := mkURI (isConnect u) (full u) (scheme u) (host u) v (queries u) (fragments u) (hostInfo u) (pathWithQueryFragment u) (pathWithQueryFragmentParsed u).
Definition set_queries (u : URI) v := mkURI (isConnect u) (full u) (scheme u) (host u) (path u) v (fragments u) (hostInfo u) (pathWithQueryFragment u) (pathWithQueryFragmentParsed u).
Definition set_fragments (u : URI) v := mkURI (isConnect u) (full u) (scheme u) (host u) (path u) (queries u) v (hostInfo u) (pathWithQueryFragment u) (pathWithQueryFragmentParsed u).
Definition set_hostInfo (u : URI) v := mkURI (isConnect u) (full u) (scheme u) (host u) (path u) (queries u) (fragments u) v (pathWithQueryFragment u) (pathWithQueryFragmentParsed u).
Definition set_pwqf (u : URI) v b := mkURI (isConnect u) (full u) (scheme u) (host u) (path u) (queries u) (fragments u) (hostInfo u) v b.

(** [func (h *HostInfo) reset()] *)
Definition reset (h : HostInfo) : HostInfo := mkHostInfo [] None [] [] [].

Definition Domain (h : HostInfo) : bytes := domain h.
Definition Port (h : HostInfo) : bytes := port h.
Definition HostWithPort (h : HostInfo) : bytes := hostWithPort h.
Definition TargetWithPort (h : HostInfo) : bytes := targetWithPort h.

(** [func (h *HostInfo) SetIP(ip net.IP)] *)
Definition SetIP (h : HostInfo) (a : option IP) : HostInfo :=
  match a with
  | None => h
  | Some a' =>
      mkHostInfo (domain h) (Some a') (port h) (hostWithPort h)
        (IPString a' ++ B ":" ++ port h)
  end.

(** The closure [hasPortFuncByte] of [ParseHostWithPort]. *)
Definition hasPortFuncByte (host : bytes) : bool :=
  LastIndexByte host "]" <? LastIndexByte host ":".

(** [func (h *HostInfo) ParseHostWithPort(host string, isHTTPS bool)] *)
Definition ParseHostWithPort (h : HostInfo) (host : bytes) (isHTTPS : bool) : HostInfo :=
  if len host =? 0 then h else
  let separated : option HostInfo :=
    if negb (hasPortFuncByte host) then
      Some (mkHostInfo host (ip h) (if isHTTPS then B "443" else B "80")
                       (hostWithPort h) (targetWithPort h))
    else
      match SplitHostPort host with
      | inr _ => None
      | inl (d, p) => Some (mkHostInfo d (ip h) p (hostWithPort h) (targetWithPort h))
      end in
  match separated with
  | None => reset h
  | Some h1 =>
      if len (domain h1) =? 0 then h1 else
      let ip' := match ParseIP (domain h1) with Some a => Some a | None => ip h1 end in
      let hwp := domain h1 ++ B ":" ++ port h1 in
      mkHostInfo (domain h1) ip' (port h1) hwp hwp
  end.

(** The accessors [Scheme], [Host], [Path], [Queries] and [Fragments]. *)
Definition Scheme (u : URI) : bytes := scheme u.
Definition Host (u : URI) : bytes := host u.
Definition Path (u : URI) : bytes := path u.
Definition Queries (u : URI) : bytes := queries u.
Definition Fragments (u : URI) : bytes := fragments u.

(** [func (uri *URI) Reset()] *)
Definition Reset (u : URI) : URI :=
  mkURI false [] [] [] [] [] [] (reset (hostInfo u)) [] false.

(** The byte test of the first [case] of [getSchemeIndex]. *)
Definition schemeByte (c : ascii) : bool :=
  le "a" c && le c "z" || le "A" c && le c "Z" || le "0" c && le c "9".

(** The loop of [getSchemeIndex], from index [i] on. *)
Fixpoint getSchemeIndexFrom (i : Z) (rawURL : bytes) : Z :=
  match rawURL with
  | [] => -1
  | c :: rest =>
      if schemeByte c then getSchemeIndexFrom (i + 1) rest
      else if bool_decide (c = ":"%char) then (if i =? 0 then 0 else i)
      else -1
  end.

(** [func getSchemeIndex(rawURL []byte) int] *)
Definition getSchemeIndex (rawURL : bytes) : Z := getSchemeIndexFrom 0 rawURL.

(** The [for i, b := range reqURI] loop of
    [parseWithoutSchemeQueriesFragments]: the index of the last slash of the
    leading run. *)
Fixpoint slashLoop (i slashIndex : Z) (reqURI : bytes) : Z :=
  match reqURI with
  | [] => slashIndex
  | b :: rest =>
      if negb (bool_decide (b = "/"%char)) then slashIndex
      else slashLoop (i + 1) i rest
  end.

(** [func (uri *URI) parseWithoutSchemeQueriesFragments(reqURI []byte)] *)
Definition parseWithoutSchemeQueriesFragments (u : URI) (reqURI : bytes) : URI :=
  let reqURI :=
    if (0 <? len (scheme u)) && (2 <=? len reqURI)
       && bool_decide (at_ reqURI 0 = "/"%char) && bool_decide (at_ reqURI 1 = "/"%char)
    then from reqURI (slashLoop 0 0 reqURI + 1)
    else reqURI in
  if len reqURI =? 0 then u
  else if bool_decide (at_ reqURI 0 = "/"%char) then set_path u reqURI
  else
    let hostNameEnd := IndexByte reqURI "/" in
    if 0 <? hostNameEnd
    then set_path (set_host u (upto reqURI hostNameEnd)) (from reqURI hostNameEnd)
    else set_host u reqURI.

(** [func (uri *URI) parseWithoutQueriesFragments(reqURI []byte)] *)
Definition parseWithoutQueriesFragments (u : URI) (reqURI : bytes) : URI :=
  if len reqURI =? 0 then u else
  let schemeEnd := getSchemeIndex reqURI in
  if 0 <=? schemeEnd
  then parseWithoutSchemeQueriesFragments
         (set_scheme u (upto reqURI schemeEnd)) (from reqURI (schemeEnd + 1))
  else parseWithoutSchemeQueriesFragments u reqURI.

(** [func (uri *URI) parseWithoutFragments(reqURI []byte)] *)
Definition parseWithoutFragments (u : URI) (reqURI : bytes) : URI :=
  if len reqURI =? 0 then u else
  let queryIndex := IndexByte reqURI "?" in
  if 0 <=? queryIndex
  then parseWithoutQueriesFragments
         (set_queries u (from reqURI queryIndex)) (upto reqURI queryIndex)
  else parseWithoutQueriesFragments u reqURI.

(** The first half of [Parse], up to and including the call of
    [parseWithoutFragments]. *)
Definition parseSplit (u : URI) (isConnect : bool) (reqURI : bytes) : URI :=
  let u := set_full (set_isConnect (Reset u) isConnect) reqURI in
  let fragmentIndex := IndexByte reqURI "#" in
  if 0 <=? fragmentIndex
  then parseWithoutFragments
         (set_fragments u (from reqURI fragmentIndex)) (upto reqURI fragmentIndex)
  else parseWithoutFragments u reqURI.

(** [func (uri *URI) Parse(isConnect bool, reqURI []byte)] *)
Definition Parse (u : URI) (isConnect : bool) (reqURI : bytes) : URI :=
  if len reqURI =? 0
  then set_full (set_isConnect (Reset u) isConnect) reqURI
  else
    let u := parseSplit u isConnect reqURI in
    let u := if negb isConnect && (len (path u) =? 0)
             then set_path u (B "/") else u in
    let u := if isConnect
             then set_fragments (set_queries (set_path (set_scheme u []) []) []) []
             else u in
    set_hostInfo u (ParseHostWithPort (hostInfo u) (host u) isConnect).

(** [func (uri *URI) PathWithQueryFragment() []byte]: the value returned and
    the URI with its cache fields updated. *)
Definition PathWithQueryFragment (u : URI) : bytes * URI :=
  if pathWithQueryFragmentParsed u then (pathWithQueryFragment u, u)
  else if isConnect u then ([], set_pwqf u [] true)
  else
    let v :=
      if len (host u) =? 0 then full u
      else let hostIndex := Index (full u) (host u) in
           if 0 <=? hostIndex then from (full u) (hostIndex + len (host u))
           else pathWithQueryFragment u in
    let v := if len v =? 0 then path u else v in
    (v, set_pwqf u v true).

(** [func (uri *URI) ChangeHost(hostWithPort string)] *)
Definition ChangeHost (u : URI) (newHostWithPort : bytes) : URI :=
  if bool_decide (hostWithPort (hostInfo u) = newHostWithPort) then u else
  let newRawURI :=
    if len (host u) =? 0 then
      let r := newHostWithPort in
      let r := if (len (full u) =? 0)
                  || (0 <? len (full u)) && negb (bool_decide (at_ (full u) 0 = "/"%char))
               then r ++ B "/" else r in
      r ++ full u
    else
      let hostIndex := Index (full u) (host u) in
      if 0 <=? hostIndex then
        if len newHostWithPort =? 0
        then from (full u) (hostIndex + len (host u))
        else Replace1 (full u) (host u) newHostWithPort
      else [] in
  let newRawURI := if len newRawURI =? 0 then B "/" else newRawURI in
  Parse u (isConnect u) newRawURI.

(** [func (uri *URI) ChangePathWithFragment(newPathWithFragment []byte)].
    The argument is taken by value: it is assumed not to share its backing
    array with the URI's own buffer. *)
Definition ChangePathWithFragment (u : URI) (newPathWithFragment : bytes) : URI :=
  if isConnect u then u else
  let '(cur, u) := PathWithQueryFragment u in
  if bool_decide (newPathWithFragment = cur) then u else
  let newRawURI :=
    if len (host u) =? 0 then newPathWithFragment
    else
      let hostIndex := Index (full u) (host u) in
      if 0 <=? hostIndex then
        let hostEndIndex := hostIndex + len (host u) in
        let r := upto (full u) hostEndIndex in
        let r := if (len newPathWithFragment =? 0)
                    || (0 <? len newPathWithFragment)
                       && negb (bool_decide (at_ newPathWithFragment 0 = "/"%char))
                 then r ++ B "/" else r in
        r ++ newPathWithFragment
      else [] in
  let newRawURI := if len newRawURI =? 0 then B "/" else newRawURI in
  Parse u (isConnect u) newRawURI.

End WithParseIP.

Arguments mkHostInfo {IP}.
Arguments mkURI {IP}.
Arguments domain {IP}.
Arguments ip {IP}.
Arguments port {IP}.
Arguments hostWithPort {IP}.
Arguments targetWithPort {IP}.
Arguments isConnect {IP}.
Arguments full {IP}.
Arguments scheme {IP}.
Arguments host {IP}.
Arguments path {IP}.
Arguments queries {IP}.
Arguments fragments {IP}.
Arguments hostInfo {IP}.
Arguments pathWithQueryFragment {IP}.
Arguments pathWithQueryFragmentParsed {IP}.
Arguments set_isConnect {IP}.
Arguments set_full {IP}.
Arguments set_scheme {IP}.
Arguments set_host {IP}.
Arguments set_path {IP}.
Arguments set_queries {IP}.
Arguments set_fragments {IP}.
Arguments set_hostInfo {IP}.
Arguments set_pwqf {IP}.
Arguments reset {IP}.
Arguments Domain {IP}.
Arguments Port {IP}.
Arguments HostWithPort {IP}.
Arguments TargetWithPort {IP}.
Arguments ParseHostWithPort {IP}.
Arguments SetIP {IP}.
Arguments Scheme {IP}.
Arguments Host {IP}.
Arguments Path {IP}.
Arguments Queries {IP}.
Arguments Fragments {IP}.
Arguments Reset {IP}.
Arguments parseWithoutSchemeQueriesFragments {IP}.
Arguments parseWithoutQueriesFragments {IP}.
Arguments parseWithoutFragments {IP}.
Arguments parseSplit {IP}.
Arguments Parse {IP}.
Arguments PathWithQueryFragment {IP}.
Arguments ChangeHost {IP}.
Arguments ChangePathWithFragment {IP}.

(** The zero value of [URI]. *)
Definition zero {IP} : URI IP :=
  mkURI false [] [] [] [] [] [] (mkHostInfo [] None [] [] []) [] false.

End uri.

(** ** Package [transport] *)
Module transport.
Import Go.

(** Errors of the operating system and resolver, by number.  None of them
    is the package's own [ErrDialTimeout] value. *)
Definition neterr := Z.

Inductive error :=
  | ErrDialTimeout
  | errNoDNSEntries
  | AddrError (why : bytes)
  | NumError
  | NetError (e : neterr).

#[global] Instance error_eq_dec : EqDecision error.
Proof. solve_decision. Defined.

(** [net.TCPAddr] *)
Record TCPAddr := mkTCPAddr { IP : bytes; Port : Z }.

#[global] Instance TCPAddr_eq_dec : EqDecision TCPAddr.
Proof. solve_decision. Defined.

(** An established [net.Conn], identified by its remote address. *)
Record Conn := mkConn { remote : TCPAddr }.

(** [type tcpAddrEntry struct] *)
Record tcpAddrEntry := mkEntry {
  addrs : list TCPAddr;
  addrsIdx : Z;
  resolveTime : Z;
  pending : bool }.

#[global] Instance tcpAddrEntry_inhabited : Inhabited tcpAddrEntry :=
  populate (mkEntry [] 0 0 false).

(** [type tcpDialer struct]: the map holds pointers, the entries they point
    to live in [heap].  A pointer stored in the map is always allocated;
    [heap d !!! p] reads the entry it points to. *)
Record tcpDialer := mkDialer {
  tcpAddrsMap : gmap bytes nat;
  heap : gmap nat tcpAddrEntry }.

(** What a run does that other goroutines or the network can observe. *)
Inductive event :=
  | Lock
  | Unlock
  | Resolve (addr : bytes)
  | Dial (a : TCPAddr).

(** The environment: the resolver, the dial semaphore as the other
    goroutines leave it, and the network.  Each blocking operation started
    at an instant answers with the time it takes and its outcome. *)
Record Env := mkEnv {
  LookupIP : bytes -> Z -> Z * (list bytes + neterr);
  slotWait : Z -> option Z;
  DialTCP : TCPAddr -> Z -> Z * (Conn + neterr) }.

(** The dialer, the clock (nanoseconds) and the events so far, latest
    first. *)
Record State := mkState {
  dialer : tcpDialer;
  clock : Z;
  trace : list event }.

Definition log (e : event) (st : State) : State :=
  mkState (dialer st) (clock st) (e :: trace st).
Definition advance (d : Z) (st : State) : State :=
  mkState (dialer st) (clock st + d) (trace st).
Definition set_dialer (d : tcpDialer) (st : State) : State :=
  mkState d (clock st) (trace st).

(** [const DefaultDNSCacheDuration = time.Minute] *)
Definition DefaultDNSCacheDuration : Z := 60 * 1000000000.

Section WithEnv.
Variable env : Env.

(** [func resolveTCPAddrs(addr string) ([]net.TCPAddr, error)] *)
Definition resolveTCPAddrs (addr : bytes) (st : State) : (list TCPAddr + error) * State :=
  let st := log (Resolve addr) st in
  match SplitHostPort addr with
  | inr why => (inr (AddrError why), st)
  | inl (host, portS) =>
      match Atoi portS with
      | None => (inr NumError, st)
      | Some port =>
          let '(d, r) := LookupIP env host (clock st) in
          let st := advance d st in
          match r with
          | inr e => (inr (NetError e), st)
          | inl ips =>
              let addrs := map (fun ip => mkTCPAddr ip port) ips in
              if len addrs =? 0 then (inr errNoDNSEntries, st)
              else (inl addrs, st)
          end
      end
  end.

(** [getTCPAddrs], first critical section: look the entry up and, when it
    is stale and nobody refreshes it, mark it pending and forget it. *)
Definition lookupEntry (addr : bytes) (st : State) : option nat * State :=
  let st := log Lock st in
  let d := dialer st in
  let e := tcpAddrsMap d !! addr in
  let '(e, d) :=
    match e with
    | Some p =>
        let ent := heap d !!! p in
        if negb (pending ent) && (DefaultDNSCacheDuration <? clock st - resolveTime ent)
        then (None,
              mkDialer (tcpAddrsMap d)
                (<[p := mkEntry (addrs ent) (addrsIdx ent) (resolveTime ent) true]> (heap d)))
        else (Some p, d)
    | None => (None, d)
    end in
  (e, log Unlock (set_dialer d st)).

(** [getTCPAddrs], critical section of the failed resolution: clear the
    pending flag of the entry now in the map. *)
Definition clearPending (addr : bytes) (st : State) : State :=
  let st := log Lock st in
  let d := dialer st in
  let d :=
    match tcpAddrsMap d !! addr with
    | Some p =>
        let ent := heap d !!! p in
        if pending ent
        then mkDialer (tcpAddrsMap d)
               (<[p := mkEntry (addrs ent) (addrsIdx ent) (resolveTime ent) false]> (heap d))
        else d
    | None => d
    end in
  log Unlock (set_dialer d st).

(** [getTCPAddrs], after a successful resolution: allocate the new entry
    and store its pointer in the map. *)
Definition storeEntry (addr : bytes) (resolved : list TCPAddr) (st : State) : nat * State :=
  let d := dialer st in
  let p := fresh (dom (heap d)) in
  let ent := mkEntry resolved 0 (clock st) false in
  let st := log Lock (set_dialer (mkDialer (tcpAddrsMap d) (<[p := ent]> (heap d))) st) in
  let d := dialer st in
  (p, log Unlock (set_dialer (mkDialer (<[addr := p]> (tcpAddrsMap d)) (heap d)) st)).

(** [atomic.AddUint32(&e.addrsIdx, 1)] on the entry at [p]. *)
Definition addIdx (p : nat) (st : State) : Z * State :=
  let d := dialer st in
  let ent := heap d !!! p in
  let idx := uint32 (addrsIdx ent + 1) in
  (idx,
   set_dialer (mkDialer (tcpAddrsMap d)
     (<[p := mkEntry (addrs ent) idx (resolveTime ent) (pending ent)]> (heap d))) st).

(** [func (d *tcpDialer) getTCPAddrs(addr string) ([]net.TCPAddr, uint32, error)] *)
Definition getTCPAddrs (addr : bytes) (st : State)
  : (list TCPAddr * Z * option error) * State :=
  let '(e, st) := lookupEntry addr st in
  let '(e, st) :=
    match e with
    | Some p => (inl p, st)
    | None =>
        let '(r, st) := resolveTCPAddrs addr st in
        match r with
        | inr err => (inr err, clearPending addr st)
        | inl resolved => let '(p, st) := storeEntry addr resolved st in (inl p, st)
        end
    end in
  match e with
  | inr err => (([], 0, Some err), st)
  | inl p =>
      let '(idx, st) := addIdx p st in
      ((addrs (heap (dialer st) !!! p), idx, None), st)
  end.

(** [func tryDial(network string, addr *net.TCPAddr, deadline time.Time,
    concurrencyCh chan struct{}) (net.Conn, error)].  A [select] whose two
    cases become ready at the same instant takes the timer. *)
Definition tryDial (addr : TCPAddr) (deadline : Z) (st : State)
  : (option Conn * option error) * State :=
  let st := log (Dial addr) st in
  let timeout := deadline - clock st in
  if timeout <=? 0 then ((None, Some ErrDialTimeout), st) else
  let acquired : option State :=
    match slotWait env (clock st) with
    | Some w => if w <=? 0 then Some st
                else if w <? timeout then Some (advance w st) else None
    | None => None
    end in
  match acquired with
  | None => ((None, Some ErrDialTimeout), advance timeout st)
  | Some st =>
      let timeout := deadline - clock st in
      if timeout <=? 0 then ((None, Some ErrDialTimeout), st) else
      let '(d, r) := DialTCP env addr (clock st) in
      if d <? timeout then
        match r with
        | inl c => ((Some c, None), advance d st)
        | inr e => ((None, Some (NetError e)), advance d st)
        end
      else ((None, Some ErrDialTimeout), advance timeout st)
  end.

(** The [for n > 0] loop of the closure returned by [newDial]; [err] is
    the error of the previous attempt. *)
Fixpoint dialLoop (addrs : list TCPAddr) (deadline : Z) (n : nat) (idx : Z)
    (err : option error) (st : State) : (option Conn * option error) * State :=
  match n with
  | O => ((None, err), st)
  | S n' =>
      let a := nth (Z.to_nat (idx mod Z.of_nat n)) addrs (mkTCPAddr [] 0) in
      let '((conn, err), st) := tryDial a deadline st in
      match err with
      | None => ((conn, None), st)
      | Some e =>
          if bool_decide (e = ErrDialTimeout) then ((None, Some e), st)
          else dialLoop addrs deadline n' (uint32 (idx + 1)) (Some e) st
      end
  end.

(** The closure returned by
    [func (d *tcpDialer) newDial(timeout time.Duration) DialFunc]. *)
Definition newDial (timeout : Z) (addr : bytes) (st : State)
  : (option Conn * option error) * State :=
  let '((addrs, idx, err), st) := getTCPAddrs addr st in
  match err with
  | Some e => ((None, Some e), st)
  | None =>
      let n := uint32 (len addrs) in
      let deadline := clock st + timeout in
      dialLoop addrs deadline (Z.to_nat n) idx None st
  end.

(** [const DefaultDialTimeout = 5 * time.Second] *)
Definition DefaultDialTimeout : Z := 5 * 1000000000.

(** What [dial] does: it returns a connection, wrapped by [tls.Client] or
    not, returns an error, or panics. *)
Inductive dialOutcome :=
  | Connected (c : Conn) (tls : bool)
  | Failed (e : error)
  | Panic.

(** [func dial(addr string, isTLS bool, tlsConfig *tls.Config)
    (net.Conn, error)].  [getDialer(DefaultDialTimeout)] is the closure of
    [newDial] for that timeout, kept in a map from one call to the next. *)
Definition dial (addr : bytes) (isTLS : bool) (st : State) : dialOutcome * State :=
  let '((conn, err), st) := newDial DefaultDialTimeout addr st in
  match err with
  | Some e => (Failed e, st)
  | None =>
      match conn with
      | None => (Panic, st)
      | Some c => (Connected c isTLS, st)
      end
  end.

End WithEnv.

(** One round of the loop of [func (d *tcpDialer) tcpAddrsClean()]: sleep a
    second, then delete under the lock every key whose entry was resolved
    more than twice [DefaultDNSCacheDuration] ago. *)
Definition tcpAddrsClean (st : State) : State :=
  let expireDuration := 2 * DefaultDNSCacheDuration in
  let st := advance 1000000000 st in
  let t := clock st in
  let st := log Lock st in
  let d := dialer st in
  let m := filter (fun kp => ~ (expireDuration < t - resolveTime (heap d !!! kp.2)))
             (tcpAddrsMap d) in
  log Unlock (set_dialer (mkDialer m (heap d)) st).

End transport.


(** ** The vocabulary of the statements *)
Module Spec.
Import Go.

(** What [IndexByte], [LastIndexByte] and [Index] return, as relations. *)
Inductive IndexByte_spec (s : bytes) (c : ascii) : Z -> Prop :=
  | IndexByte_none : c ∉ s -> IndexByte_spec s c (-1)
  | IndexByte_some a b : s = a ++ c :: b -> c ∉ a -> IndexByte_spec s c (len a).

Inductive LastIndexByte_spec (s : bytes) (c : ascii) : Z -> Prop :=
  | LastIndexByte_none : c ∉ s -> LastIndexByte_spec s c (-1)
  | LastIndexByte_some a b : s = a ++ c :: b -> c ∉ b -> LastIndexByte_spec s c (len a).

Inductive Index_spec (s sep : bytes) : Z -> Prop :=
  | Index_none : (forall a b, s <> a ++ sep ++ b) -> Index_spec s sep (-1)
  | Index_some a b :
      s = a ++ sep ++ b ->
      (forall a' b', s = a' ++ sep ++ b' -> (length a <= length a')%nat) ->
      Index_spec s sep (len a).

(** The longest prefix of [s] whose bytes all pass the test [p], and what
    follows it. *)
Fixpoint leading (p : ascii -> bool) (s : bytes) : bytes :=
  match s with
  | [] => []
  | x :: s' => if p x then x :: leading p s' else []
  end.

Fixpoint trailing (p : ascii -> bool) (s : bytes) : bytes :=
  match s with
  | [] => []
  | x :: s' => if p x then trailing p s' else s
  end.

Definition isNot (c x : ascii) : bool := negb (bool_decide (x = c)).
Definition isSlash (x : ascii) : bool := bool_decide (x = "/"%char).

(** [s] up to its first [c], and [s] from its first [c] on. *)
Definition before (c : ascii) (s : bytes) : bytes := leading (isNot c) s.
Definition since (c : ascii) (s : bytes) : bytes := trailing (isNot c) s.

(** The bytes with a meaning of their own in a request target or in a
    [host:port] pair. *)
Definition reserved (c : ascii) : bool := bool_decide (c ∈ B ":/?#[]").

(** No reserved byte in [s]. *)
Definition plain (s : bytes) : bool := forallb (fun c => negb (reserved c)) s.

(** Some byte of [s] can be neither part of a scheme nor the colon that
    ends one. *)
Definition marked (s : bytes) : bool :=
  existsb (fun c => negb (uri.schemeByte c) && isNot ":" c) s.

(** The scheme and what follows its colon, when the string starts with
    bytes of a scheme and a colon. *)
Definition splitScheme (s : bytes) : option (bytes * bytes) :=
  match trailing uri.schemeByte s with
  | c :: rem =>
      if bool_decide (c = ":"%char) then Some (leading uri.schemeByte s, rem) else None
  | [] => None
  end.

(** The remainder once the slashes in front of the authority are gone. *)
Definition afterSlashes (sch rem : bytes) : bytes :=
  if (0 <? len sch) && (2 <=? len rem)
     && bool_decide (at_ rem 0 = "/"%char) && bool_decide (at_ rem 1 = "/"%char)
  then trailing isSlash rem else rem.

(** The five parts of a request target: scheme, host, path, queries and
    fragments. *)
Definition parts (raw : bytes) : bytes * bytes * bytes * bytes * bytes :=
  let frag := since "#" raw in
  let body := before "#" raw in
  let qry := since "?" body in
  let body := before "?" body in
  let '(sch, rem) := match splitScheme body with Some x => x | None => ([], body) end in
  let rem := afterSlashes sch rem in
  (sch, before "/" rem, since "/" rem, qry, frag).

(** The indices into the address list that the dial loop goes through
    when no attempt succeeds or times out, for [n] addresses and a first
    index [idx]. *)
Fixpoint tried (n : nat) (idx : Z) : list nat :=
  match n with
  | O => []
  | S n' => Z.to_nat (idx mod Z.of_nat n) :: tried n' (uint32 (idx + 1))
  end.

(** The dial events of the addresses at the indices [ix]. *)
Definition dialEvents (addrs : list transport.TCPAddr) (ix : list nat)
  : list transport.event :=
  map (fun i => transport.Dial (nth i addrs (transport.mkTCPAddr [] 0))) ix.

(** Two resolved addresses, the first refusing connections and the second
    accepting them, for a host name that resolves to both. *)
Definition A0 : transport.TCPAddr := transport.mkTCPAddr (B "10.0.0.1") 80.
Definition A1 : transport.TCPAddr := transport.mkTCPAddr (B "10.0.0.2") 80.
Definition env01 : transport.Env :=
  transport.mkEnv
    (fun _ _ => (0, inl [B "10.0.0.1"; B "10.0.0.2"]))
    (fun _ => Some 0)
    (fun a _ => if decide (a = A1) then (1, inl (transport.mkConn a)) else (1, inr 111)).

(** [k] calls of [getTCPAddrs] for the same address, one after the other:
    the indices they return. *)
Fixpoint lookups (env : transport.Env) (addr : bytes) (k : nat)
    (st : transport.State) : list Z * transport.State :=
  match k with
  | O => ([], st)
  | S k' =>
      let '((_, idx, _), st1) := transport.getTCPAddrs env addr st in
      let '(l, st2) := lookups env addr k' st1 in
      (idx :: l, st2)
  end.

(** Every pointer of the map is allocated, and the entry it points to
    holds at least one address and fewer than 2^32. *)
Definition cacheOK (d : transport.tcpDialer) : Prop :=
  forall addr p, transport.tcpAddrsMap d !! addr = Some p ->
    exists e, transport.heap d !! p = Some e /\
      transport.addrs e <> [] /\ len (transport.addrs e) < 2 ^ 32.

(** The resolver never answers with 2^32 addresses or more. *)
Definition resolverOK (env : transport.Env) : Prop :=
  forall h t d ips, transport.LookupIP env h t = (d, inl ips) -> len ips < 2 ^ 32.

(** [rest] is empty or starts a path, the queries or the fragments. *)
Definition delimited (rest : bytes) : Prop :=
  rest = [] \/
  exists c r, rest = c :: r /\ (c = "/"%char \/ c = "?"%char \/ c = "#"%char).

(** [hst] stands in [pre ++ hst ++ rest] where the parser looks for the
    host: at the very beginning of a target without scheme, or behind a
    scheme, its colon and either no slash or two and more. *)
Definition located (pre hst rest : bytes) : Prop :=
  hst <> [] /\ ("/"%char ∉ hst) /\ ("?"%char ∉ hst) /\ ("#"%char ∉ hst) /\
  delimited rest /\
  ((pre = [] /\ splitScheme hst = None) \/
   (exists sch k, pre = sch ++ ":"%char :: replicate k "/"%char /\
      Forall (fun c => uri.schemeByte c = true) sch /\
      (k = 0%nat \/ ((2 <= k)%nat /\ sch <> [])))).

End Spec.

(** ** Facts about the library functions *)
Module GoLemmas.
Import Go Spec.

Lemma len_nil {A} : len (@nil A) = 0.
Proof. reflexivity. Qed.

Lemma len_cons {A} (x : A) s : len (x :: s) = len s + 1.
Proof. unfold len. simpl. lia. Qed.

Lemma len_app {A} (a b : list A) : len (a ++ b) = len a + len b.
Proof. unfold len. rewrite length_app. lia. Qed.

Lemma len_nonneg {A} (s : list A) : 0 <= len s.
Proof. unfold len. lia. Qed.

Lemma len_zero {A} (s : list A) : len s = 0 <-> s = [].
Proof. unfold len. destruct s; simpl; split; intros; try done; lia. Qed.

Lemma len_eqb_nil {A} (s : list A) : (len s =? 0) = true -> s = [].
Proof. intros H. apply len_zero. lia. Qed.

Lemma len_eqb_cons {A} (x : A) s : (len (x :: s) =? 0) = false.
Proof. rewrite len_cons. pose proof (len_nonneg s). lia. Qed.

Lemma len_eqb_false {A} (s : list A) : s ≠ [] -> (len s =? 0) = false.
Proof. destruct s; [done|]. intros _. apply len_eqb_cons. Qed.

Lemma from_0 s : from s 0 = s.
Proof. reflexivity. Qed.

Lemma from_len_app a b : from (a ++ b) (len a) = b.
Proof. unfold from, len. rewrite Nat2Z.id. apply drop_app_length. Qed.

Lemma upto_len_app a b : upto (a ++ b) (len a) = a.
Proof. unfold upto, len. rewrite Nat2Z.id. apply take_app_length. Qed.

Lemma from_len_app_add a b k : 0 <= k -> from (a ++ b) (len a + k) = from b k.
Proof.
  intros Hk. unfold from, len.
  replace (Z.to_nat (Z.of_nat (length a) + k)) with (length a + Z.to_nat k)%nat by lia.
  apply drop_app_add.
Qed.

Lemma upto_len_app_add a b k : 0 <= k -> upto (a ++ b) (len a + k) = a ++ upto b k.
Proof.
  intros Hk. unfold upto, len.
  replace (Z.to_nat (Z.of_nat (length a) + k)) with (length a + Z.to_nat k)%nat by lia.
  apply take_app_add.
Qed.

Lemma from_cons_succ x s k : 0 <= k -> from (x :: s) (k + 1) = from s k.
Proof.
  intros Hk. unfold from.
  replace (Z.to_nat (k + 1)) with (S (Z.to_nat k)) by lia. reflexivity.
Qed.

Lemma at_0_cons x s : at_ (x :: s) 0 = x.
Proof. reflexivity. Qed.

Lemma at_1_cons x y s : at_ (x :: y :: s) 1 = y.
Proof. reflexivity. Qed.

(** *** [IndexByte] *)

Lemma IndexByteP s c : IndexByte_spec s c (IndexByte s c).
Proof.
  induction s as [|x s IH]; simpl.
  - constructor. apply not_elem_of_nil.
  - case_bool_decide as Hx.
    + subst x. apply (IndexByte_some _ _ [] s); [done | apply not_elem_of_nil].
    + destruct IH as [Hn | a b -> Ha].
      * simpl. constructor. rewrite not_elem_of_cons. done.
      * pose proof (len_nonneg a).
        destruct (len a <? 0) eqn:E; [lia|].
        rewrite <- (len_cons x a).
        apply (IndexByte_some _ _ (x :: a) b); [done|].
        rewrite not_elem_of_cons. auto.
Qed.

Lemma IndexByte_notin s c : c ∉ s -> IndexByte s c = -1.
Proof.
  intros Hn. destruct (IndexByteP s c) as [_ | a b -> _]; [done|].
  exfalso. apply Hn. rewrite elem_of_app, elem_of_cons. auto.
Qed.

Lemma IndexByte_first a b c : c ∉ a -> IndexByte (a ++ c :: b) c = len a.
Proof.
  intros Ha. destruct (IndexByteP (a ++ c :: b) c) as [Hn | a' b' Heq Ha'].
  - exfalso. apply Hn. rewrite elem_of_app, elem_of_cons. auto.
  - destruct (not_elem_of_app_cons_inv_l c c a b a' b') as (-> & _); done.
Qed.

Lemma IndexByte_lt s c : IndexByte s c < len s.
Proof.
  destruct (IndexByteP s c) as [_ | a b -> _].
  - pose proof (len_nonneg s). lia.
  - rewrite len_app, len_cons. pose proof (len_nonneg b). lia.
Qed.

(** *** [LastIndexByte] *)

Lemma LastIndexByteP s c : LastIndexByte_spec s c (LastIndexByte s c).
Proof.
  induction s as [|x s IH]; simpl.
  - constructor. apply not_elem_of_nil.
  - destruct IH as [Hn | a b -> Hb].
    + simpl. case_bool_decide as Hx.
      * subst x. apply (LastIndexByte_some _ _ [] s); done.
      * constructor. rewrite not_elem_of_cons. done.
    + pose proof (len_nonneg a).
      destruct (0 <=? len a) eqn:E; [|lia].
      rewrite <- (len_cons x a).
      apply (LastIndexByte_some _ _ (x :: a) b); done.
Qed.

Lemma LastIndexByte_notin s c : c ∉ s -> LastIndexByte s c = -1.
Proof.
  intros Hn. destruct (LastIndexByteP s c) as [_ | a b -> _]; [done|].
  exfalso. apply Hn. rewrite elem_of_app, elem_of_cons. auto.
Qed.

Lemma LastIndexByte_last a b c : c ∉ b -> LastIndexByte (a ++ c :: b) c = len a.
Proof.
  intros Hb. destruct (LastIndexByteP (a ++ c :: b) c) as [Hn | a' b' Heq Hb'].
  - exfalso. apply Hn. rewrite elem_of_app, elem_of_cons. auto.
  - destruct (not_elem_of_app_cons_inv_r c c a b a' b') as (-> & _); done.
Qed.

(** *** [Index] *)

Lemma HasPrefix_true s p : HasPrefix s p = true <-> exists r, s = p ++ r.
Proof.
  revert s. induction p as [|y p IH]; intros s; simpl.
  - split; eauto.
  - destruct s as [|x s].
    + split; [done | intros [r Hr]; done].
    + rewrite andb_true_iff, bool_decide_eq_true, IH. split.
      * intros [-> [r ->]]. eauto.
      * intros [r Hr]. simplify_eq. eauto.
Qed.

Lemma IndexP s sep : Index_spec s sep (Index s sep).
Proof.
  induction s as [|x s IH]; simpl.
  - destruct sep as [|y sep]; simpl.
    + apply (Index_some _ _ [] []); [done | intros; simpl; lia].
    + constructor. intros [|? a] b; done.
  - destruct (HasPrefix (x :: s) sep) eqn:Hp.
    + apply HasPrefix_true in Hp as [r Hr].
      apply (Index_some _ _ [] r); [done | intros; simpl; lia].
    + assert (Hnp : forall r, x :: s <> sep ++ r).
      { intros r Hr. assert (HasPrefix (x :: s) sep = true) as Ht
          by (apply HasPrefix_true; eauto).
        simpl in Ht. congruence. }
      destruct IH as [Hn | a b -> Hmin].
      * simpl. constructor. intros [|x' a] b Heq.
        -- by apply (Hnp b).
        -- simplify_eq/=. by apply (Hn a b).
      * pose proof (len_nonneg a).
        destruct (len a <? 0) eqn:E; [lia|].
        rewrite <- (len_cons x a).
        apply (Index_some _ _ (x :: a) b); [done|].
        intros [|x' a'] b' Heq.
        -- exfalso. by apply (Hnp b').
        -- injection Heq as -> Heq. specialize (Hmin a' b' Heq). simpl. lia.
Qed.

(** An instance of [w] that starts inside [pre], before the one that
    follows [pre], forces every byte of [w] to be one of [pre]'s kind. *)
Lemma overlap_Forall (P : ascii -> Prop) (pre w rest a b : bytes) :
  pre ++ w ++ rest = a ++ w ++ b ->
  (length a < length pre)%nat ->
  Forall P pre -> Forall P w.
Proof.
  intros Heq Hlt Hpre. apply Forall_lookup_2.
  intros i. induction (lt_wf i) as [i _ IH]. intros x Hx.
  assert (Hi : (i < length w)%nat) by (eapply lookup_lt_Some; eauto).
  assert (Hl : (pre ++ w ++ rest) !! (length a + i)%nat = Some x).
  { rewrite Heq, lookup_app_r by lia.
    replace (length a + i - length a)%nat with i by lia.
    by apply lookup_app_l_Some. }
  destruct (decide (length a + i < length pre)%nat) as [Hin | Hout].
  - rewrite lookup_app_l in Hl by done. eapply Forall_lookup_1; eauto.
  - rewrite lookup_app_r in Hl by lia.
    rewrite lookup_app_l in Hl by lia.
    eapply (IH (length a + i - length pre)%nat); [lia | done].
Qed.

(** The first instance of [w] in [pre ++ w ++ rest] is the one after
    [pre], as soon as [w] has a byte that is not of [pre]'s kind. *)
Lemma Index_after (P : ascii -> Prop) (pre w rest : bytes) :
  Forall P pre -> ~ Forall P w ->
  Index (pre ++ w ++ rest) w = len pre.
Proof.
  intros Hpre Hw.
  destruct (IndexP (pre ++ w ++ rest) w) as [Hn | a b Heq Hmin].
  - exfalso. by apply (Hn pre rest).
  - specialize (Hmin pre rest eq_refl).
    destruct (decide (length a = length pre)) as [He | Hne].
    + unfold len. by rewrite He.
    + exfalso. apply Hw. eapply overlap_Forall; eauto. lia.
Qed.

Lemma Index_prefix w rest : Index (w ++ rest) w = 0.
Proof.
  destruct (IndexP (w ++ rest) w) as [Hn | a b Heq Hmin].
  - exfalso. by apply (Hn [] rest).
  - specialize (Hmin [] rest eq_refl). simpl in Hmin.
    destruct a; [done | simpl in Hmin; lia].
Qed.

Lemma Replace1_at pre w rest new :
  Index (pre ++ w ++ rest) w = len pre ->
  Replace1 (pre ++ w ++ rest) w new = pre ++ new ++ rest.
Proof.
  intros Hi. unfold Replace1. rewrite Hi.
  pose proof (len_nonneg pre). destruct (len pre <? 0) eqn:E; [lia|].
  rewrite upto_len_app. do 2 f_equal.
  rewrite from_len_app_add by apply len_nonneg.
  rewrite <- (Z.add_0_r (len w)), from_len_app_add by lia. done.
Qed.

Lemma LastIndexByte_ge s c : -1 <= LastIndexByte s c.
Proof.
  destruct (LastIndexByteP s c) as [_ | a b _ _]; [lia|].
  pose proof (len_nonneg a). lia.
Qed.

Lemma LastIndexByte_lt s c : LastIndexByte s c < len s.
Proof.
  destruct (LastIndexByteP s c) as [_ | a b -> _].
  - pose proof (len_nonneg s). lia.
  - rewrite len_app, len_cons. pose proof (len_nonneg b). lia.
Qed.

Lemma LastIndexByte_in s c : c ∈ s -> 0 <= LastIndexByte s c.
Proof.
  intros Hin. destruct (LastIndexByteP s c) as [Hn | a b _ _]; [done|].
  apply len_nonneg.
Qed.

Lemma LastIndexByte_app a b c :
  LastIndexByte (a ++ b) c =
  if 0 <=? LastIndexByte b c then len a + LastIndexByte b c else LastIndexByte a c.
Proof.
  induction a as [|x a IH]; simpl.
  - destruct (0 <=? LastIndexByte b c) eqn:E; [done|].
    pose proof (LastIndexByte_ge b c). lia.
  - rewrite IH. pose proof (len_nonneg a). rewrite len_cons.
    destruct (0 <=? LastIndexByte b c) eqn:E.
    + destruct (0 <=? len a + LastIndexByte b c) eqn:E'; lia.
    + done.
Qed.

Lemma IndexByte_ge s c : -1 <= IndexByte s c.
Proof.
  destruct (IndexByteP s c) as [_ | a b _ _]; [lia|].
  pose proof (len_nonneg a). lia.
Qed.

Lemma IndexByte_in s c : c ∈ s -> 0 <= IndexByte s c.
Proof.
  intros Hin. destruct (IndexByteP s c) as [Hn | a b _ _]; [done|].
  apply len_nonneg.
Qed.

Lemma IndexByte_app a b c :
  IndexByte (a ++ b) c =
  if 0 <=? IndexByte a c then IndexByte a c
  else if 0 <=? IndexByte b c then len a + IndexByte b c else -1.
Proof.
  induction a as [|x a IH]; simpl.
  - pose proof (IndexByte_ge b c). change (len (@nil ascii)) with 0.
    destruct (0 <=? IndexByte b c) eqn:E; lia.
  - case_bool_decide; [done|]. rewrite IH. rewrite len_cons.
    pose proof (len_nonneg a). pose proof (IndexByte_ge a c).
    pose proof (IndexByte_ge b c).
    repeat (case_match; try lia).
Qed.

(** *** Splitting at the first byte that fails a test *)

Lemma leading_trailing p s : leading p s ++ trailing p s = s.
Proof. induction s as [|x s IH]; simpl; [done|]. destruct (p x); simpl; congruence. Qed.

Lemma leading_Forall p s : Forall (fun c => p c = true) (leading p s).
Proof.
  induction s as [|x s IH]; simpl; [constructor|].
  destruct (p x) eqn:E; constructor; done.
Qed.

Lemma trailing_head p s : trailing p s = [] \/ exists c r, trailing p s = c :: r /\ p c = false.
Proof.
  induction s as [|x s IH]; simpl; [by left|].
  destruct (p x) eqn:E; [done|]. right. eauto.
Qed.

Lemma leading_app p a b :
  Forall (fun c => p c = true) a -> leading p (a ++ b) = a ++ leading p b.
Proof. induction 1 as [|x a Hx _ IH]; simpl; [done|]. by rewrite Hx, IH. Qed.

Lemma trailing_app p a b :
  Forall (fun c => p c = true) a -> trailing p (a ++ b) = trailing p b.
Proof. induction 1 as [|x a Hx _ IH]; simpl; [done|]. by rewrite Hx, IH. Qed.

Lemma leading_stop p c r : p c = false -> leading p (c :: r) = [].
Proof. intros H. simpl. by rewrite H. Qed.

Lemma trailing_stop p c r : p c = false -> trailing p (c :: r) = c :: r.
Proof. intros H. simpl. by rewrite H. Qed.

Lemma isNot_Forall c (a : bytes) : c ∉ a <-> Forall (fun x => isNot c x = true) a.
Proof.
  unfold isNot. induction a as [|x a IH].
  - split; [constructor | intros _; apply not_elem_of_nil].
  - rewrite not_elem_of_cons, Forall_cons, IH, negb_true_iff, bool_decide_eq_false.
    intuition congruence.
Qed.

Lemma before_since c s : before c s ++ since c s = s.
Proof. apply leading_trailing. Qed.

Lemma before_notin c s : c ∉ before c s.
Proof. apply isNot_Forall, leading_Forall. Qed.

Lemma since_head c s : since c s = [] \/ exists r, since c s = c :: r.
Proof.
  destruct (trailing_head (isNot c) s) as [? | (x & r & Hr & Hx)]; [by left|].
  right. exists r. unfold isNot in Hx.
  apply negb_false_iff, bool_decide_eq_true in Hx. by subst.
Qed.

Lemma before_app c a b : c ∉ a -> before c (a ++ b) = a ++ before c b.
Proof. intros. by apply leading_app, isNot_Forall. Qed.

Lemma since_app c a b : c ∉ a -> since c (a ++ b) = since c b.
Proof. intros. by apply trailing_app, isNot_Forall. Qed.

Lemma before_all c s : c ∉ s -> before c s = s.
Proof.
  intros H. rewrite <- (app_nil_r s) at 1. rewrite before_app by done.
  by rewrite app_nil_r.
Qed.

Lemma since_all c s : c ∉ s -> since c s = [].
Proof.
  intros H. rewrite <- (app_nil_r s) at 1. by rewrite since_app.
Qed.

Lemma before_cons_eq c r : before c (c :: r) = [].
Proof. apply leading_stop. unfold isNot. by rewrite bool_decide_eq_true_2. Qed.

Lemma since_cons_eq c r : since c (c :: r) = c :: r.
Proof. apply trailing_stop. unfold isNot. by rewrite bool_decide_eq_true_2. Qed.

(** [IndexByte] cuts where [before] and [since] do. *)
Lemma IndexByte_cut s c :
  (IndexByte s c < 0 /\ before c s = s /\ since c s = []) \/
  (0 <= IndexByte s c /\ upto s (IndexByte s c) = before c s /\
   from s (IndexByte s c) = since c s /\ since c s <> []).
Proof.
  destruct (IndexByteP s c) as [Hn | a b -> Ha].
  - left. split_and!; [lia | by apply before_all | by apply since_all].
  - right. rewrite before_app, since_app, before_cons_eq, since_cons_eq, app_nil_r by done.
    split_and!; [apply len_nonneg | apply upto_len_app | apply from_len_app | done].
Qed.

End GoLemmas.

(** ** Properties of package [uri] *)
Module URIProofs.
Import Go Spec GoLemmas uri.

Section Proofs.
Context {IP : Type} (ParseIP : bytes -> option IP).

Implicit Types (u : URI IP) (h : HostInfo IP) (raw : bytes).

(** *** What the sub-parsers leave alone *)

Ltac fields :=
  unfold set_isConnect, set_full, set_scheme, set_host, set_path, set_queries,
    set_fragments, set_hostInfo, set_pwqf;
  cbn [isConnect full scheme host path queries fragments hostInfo
       pathWithQueryFragment pathWithQueryFragmentParsed].

Ltac unfold_parsers :=
  unfold parseSplit, parseWithoutFragments, parseWithoutQueriesFragments,
    parseWithoutSchemeQueriesFragments.

Lemma pWSQF_frame u r :
  let v := parseWithoutSchemeQueriesFragments u r in
  isConnect v = isConnect u /\ full v = full u /\ scheme v = scheme u /\
  queries v = queries u /\ fragments v = fragments u /\
  hostInfo v = hostInfo u /\
  pathWithQueryFragment v = pathWithQueryFragment u /\
  pathWithQueryFragmentParsed v = pathWithQueryFragmentParsed u.
Proof. unfold_parsers. simpl. repeat case_match; simpl; done. Qed.

Lemma pWQF_frame u r :
  let v := parseWithoutQueriesFragments u r in
  isConnect v = isConnect u /\ full v = full u /\
  queries v = queries u /\ fragments v = fragments u /\
  hostInfo v = hostInfo u /\
  pathWithQueryFragment v = pathWithQueryFragment u /\
  pathWithQueryFragmentParsed v = pathWithQueryFragmentParsed u.
Proof.
  unfold parseWithoutQueriesFragments. simpl.
  repeat case_match; try done;
    match goal with
    | |- context [parseWithoutSchemeQueriesFragments ?a ?b] =>
        destruct (pWSQF_frame a b) as (-> & -> & _ & -> & -> & -> & -> & ->)
    end; done.
Qed.

Lemma pWF_frame u r :
  let v := parseWithoutFragments u r in
  isConnect v = isConnect u /\ full v = full u /\ fragments v = fragments u /\
  hostInfo v = hostInfo u /\
  pathWithQueryFragment v = pathWithQueryFragment u /\
  pathWithQueryFragmentParsed v = pathWithQueryFragmentParsed u.
Proof.
  unfold parseWithoutFragments. simpl.
  repeat case_match; try done;
    match goal with
    | |- context [parseWithoutQueriesFragments ?a ?b] =>
        destruct (pWQF_frame a b) as (-> & -> & _ & -> & -> & -> & ->)
    end; done.
Qed.

Lemma parseSplit_frame u b raw :
  let v := parseSplit u b raw in
  isConnect v = b /\ full v = raw /\
  hostInfo v = reset (hostInfo u) /\
  pathWithQueryFragment v = [] /\ pathWithQueryFragmentParsed v = false.
Proof.
  unfold parseSplit. simpl.
  case_match;
    match goal with
    | |- context [parseWithoutFragments ?a ?b] =>
        destruct (pWF_frame a b) as (-> & -> & _ & -> & -> & ->)
    end; done.
Qed.

(** *** The parser in closed form *)

Lemma schemeByte_colon : schemeByte ":" = false.
Proof. reflexivity. Qed.

Lemma getSchemeIndexFrom_closed i (s : bytes) :
  0 <= i ->
  match splitScheme s with
  | Some (sch, rem) => getSchemeIndexFrom i s = i + len sch /\ s = sch ++ ":"%char :: rem
  | None => getSchemeIndexFrom i s = -1
  end.
Proof.
  unfold splitScheme. revert i. induction s as [|x s IH]; intros i Hi; simpl; [done|].
  destruct (schemeByte x) eqn:Hx.
  - specialize (IH (i + 1) ltac:(lia)).
    destruct (trailing schemeByte s) as [|c rem]; [done|].
    case_bool_decide; [|done]. destruct IH as [IH1 IH2].
    rewrite IH1, len_cons. split; [lia | simpl; by f_equal].
  - case_bool_decide as Hc; [|done]. subst x. simpl.
    change (len (@nil ascii)) with 0. split; [|done].
    destruct (i =? 0) eqn:E; lia.
Qed.

Lemma getSchemeIndex_closed (s : bytes) :
  match splitScheme s with
  | Some (sch, rem) => getSchemeIndex s = len sch /\ s = sch ++ ":"%char :: rem
  | None => getSchemeIndex s = -1
  end.
Proof.
  pose proof (getSchemeIndexFrom_closed 0 s ltac:(lia)) as H.
  unfold getSchemeIndex. destruct (splitScheme s) as [[sch rem]|]; [|done].
  by rewrite Z.add_0_l in H.
Qed.

Lemma slashLoop_closed i si (s : bytes) :
  slashLoop i si s =
  if len (leading isSlash s) =? 0 then si else i + len (leading isSlash s) - 1.
Proof.
  revert i si. induction s as [|x s IH]; intros i si; simpl; [done|].
  unfold isSlash at 1 2 3. case_bool_decide; simpl; [|done].
  rewrite IH, len_cons. pose proof (len_nonneg (leading isSlash s)).
  destruct (len (leading isSlash s) =? 0) eqn:E;
    destruct (len (leading isSlash s) + 1 =? 0) eqn:E'; lia.
Qed.

Lemma pWSQF_closed u (rem : bytes) :
  host u = [] -> path u = [] ->
  parseWithoutSchemeQueriesFragments u rem =
  let r := afterSlashes (scheme u) rem in
  mkURI (isConnect u) (full u) (scheme u) (before "/" r) (since "/" r)
    (queries u) (fragments u) (hostInfo u)
    (pathWithQueryFragment u) (pathWithQueryFragmentParsed u).
Proof.
  intros Hh Hp. unfold parseWithoutSchemeQueriesFragments, afterSlashes.
  set (c := (0 <? len (scheme u)) && (2 <=? len rem)
     && bool_decide (at_ rem 0 = "/"%char) && bool_decide (at_ rem 1 = "/"%char)).
  assert (Hs : (if c then from rem (slashLoop 0 0 rem + 1) else rem)
               = (if c then trailing isSlash rem else rem)).
  { destruct c eqn:Hc; [|done]. unfold c in Hc.
    rewrite !andb_true_iff, !bool_decide_eq_true in Hc.
    destruct Hc as (((_ & _) & H0) & _).
    rewrite slashLoop_closed.
    clear c. destruct rem as [|x rem]; [done|]. change (x = "/"%char) in H0. subst x.
    assert (Hl : leading isSlash ("/"%char :: rem) = "/"%char :: leading isSlash rem)
      by reflexivity.
    rewrite Hl, len_eqb_cons.
    replace (0 + len ("/"%char :: leading isSlash rem) - 1 + 1)
      with (len ("/"%char :: leading isSlash rem)) by lia.
    rewrite <- Hl.
    rewrite <- (leading_trailing isSlash ("/"%char :: rem)) at 1.
    apply from_len_app. }
  rewrite Hs. clear Hs.
  generalize (if c then trailing isSlash rem else rem). intros r.
  destruct u as [ic fu sc ho pa qu fr hi pw pp]. simpl in *. subst ho pa.
  destruct r as [|x r]; [done|].
  rewrite len_eqb_cons, at_0_cons.
  case_bool_decide as Hx.
  - subst x. rewrite before_cons_eq, since_cons_eq. done.
  - destruct (IndexByte_cut (x :: r) "/") as [(Hi & Hb & Hsn) | (Hi & Hb & Hsn & Hne)].
    + destruct (0 <? IndexByte (x :: r) "/") eqn:E; [lia|].
      rewrite Hb, Hsn. done.
    + assert (IndexByte (x :: r) "/" <> 0).
      { simpl. rewrite bool_decide_eq_false_2 by done.
        destruct (IndexByte r "/" <? 0) eqn:E; lia. }
      destruct (0 <? IndexByte (x :: r) "/") eqn:E; [|lia].
      fields. rewrite Hb, Hsn. done.
Qed.

Lemma pWQF_closed u (body : bytes) :
  host u = [] -> path u = [] -> scheme u = [] ->
  parseWithoutQueriesFragments u body =
  let '(sch, rem) := match splitScheme body with Some x => x | None => ([], body) end in
  let r := afterSlashes sch rem in
  mkURI (isConnect u) (full u) sch (before "/" r) (since "/" r)
    (queries u) (fragments u) (hostInfo u)
    (pathWithQueryFragment u) (pathWithQueryFragmentParsed u).
Proof.
  intros Hh Hp Hs. unfold parseWithoutQueriesFragments.
  destruct body as [|x body].
  - destruct u; simpl in *; by subst.
  - rewrite len_eqb_cons.
    pose proof (getSchemeIndex_closed (x :: body)) as Hg.
    destruct (splitScheme (x :: body)) as [[sch rem]|].
    + destruct Hg as [Hg Hb]. rewrite Hg, Hb.
      pose proof (len_nonneg sch). destruct (0 <=? len sch) eqn:E; [|lia].
      rewrite upto_len_app.
      replace (from (sch ++ ":"%char :: rem) (len sch + 1)) with rem.
      2:{ change (sch ++ ":"%char :: rem) with (sch ++ [":"%char] ++ rem).
          rewrite from_len_app_add by lia. done. }
      rewrite pWSQF_closed by done. done.
    + rewrite Hg. change (0 <=? -1) with false. cbv iota.
      rewrite pWSQF_closed by done. cbv zeta. by rewrite Hs.
Qed.

Lemma pWF_closed u (body : bytes) :
  host u = [] -> path u = [] -> scheme u = [] -> queries u = [] ->
  parseWithoutFragments u body =
  let qry := since "?" body in
  let body := before "?" body in
  let '(sch, rem) := match splitScheme body with Some x => x | None => ([], body) end in
  let r := afterSlashes sch rem in
  mkURI (isConnect u) (full u) sch (before "/" r) (since "/" r)
    qry (fragments u) (hostInfo u)
    (pathWithQueryFragment u) (pathWithQueryFragmentParsed u).
Proof.
  intros Hh Hp Hs Hq. unfold parseWithoutFragments.
  destruct body as [|x body].
  - destruct u; simpl in *; by subst.
  - rewrite len_eqb_cons.
    destruct (IndexByte_cut (x :: body) "?") as [(Hi & Hb & Hsn) | (Hi & Hb & Hsn & _)].
    + destruct (0 <=? IndexByte (x :: body) "?") eqn:E; [lia|].
      rewrite pWQF_closed by done. cbv zeta. rewrite Hb, Hsn, Hq. done.
    + destruct (0 <=? IndexByte (x :: body) "?") eqn:E; [|lia].
      rewrite pWQF_closed by done. cbv zeta. rewrite Hb, Hsn. done.
Qed.

Lemma parseSplit_closed u b raw :
  parseSplit u b raw =
  let '(sch, hst, pth, qry, frag) := parts raw in
  mkURI b raw sch hst pth qry frag (mkHostInfo [] None [] [] []) [] false.
Proof.
  unfold parseSplit, parts.
  destruct (IndexByte_cut raw "#") as [(Hi & Hb & Hsn) | (Hi & Hb & Hsn & _)].
  - destruct (0 <=? IndexByte raw "#") eqn:E; [lia|].
    rewrite pWF_closed by done. cbv zeta. rewrite Hb, Hsn.
    destruct (splitScheme (before "?" raw)) as [[sch rem]|]; done.
  - destruct (0 <=? IndexByte raw "#") eqn:E; [|lia].
    rewrite pWF_closed by done. cbv zeta. rewrite Hb, Hsn.
    destruct (splitScheme (before "?" (before "#" raw))) as [[sch rem]|]; done.
Qed.

(** [Parse] of a target that is not empty, in terms of its parts. *)
Lemma Parse_closed u b raw :
  raw <> [] ->
  Parse ParseIP u b raw =
  let '(sch, hst, pth, qry, frag) := parts raw in
  if b
  then mkURI true raw [] hst [] [] []
         (ParseHostWithPort ParseIP (mkHostInfo [] None [] [] []) hst true) [] false
  else mkURI false raw sch hst (if len pth =? 0 then B "/" else pth) qry frag
         (ParseHostWithPort ParseIP (mkHostInfo [] None [] [] []) hst false) [] false.
Proof.
  intros Hr. unfold Parse. rewrite (len_eqb_false raw Hr), parseSplit_closed.
  destruct (parts raw) as [[[[sch hst] pth] qry] frag].
  destruct b; fields; simpl; [done|].
  destruct (len pth =? 0); done.
Qed.

Lemma Parse_nil u b : Parse ParseIP u b [] = mkURI b [] [] [] [] [] [] (mkHostInfo [] None [] [] []) [] false.
Proof. reflexivity. Qed.

(** [Parse] starts from [Reset]: the URI it is called on does not
    matter. *)
Lemma Parse_fresh u u' b raw : Parse ParseIP u b raw = Parse ParseIP u' b raw.
Proof. reflexivity. Qed.

(** C2. After [Parse(isConnect, raw)] the [full] field is [raw], byte for
    byte, for every [raw] and either value of [isConnect]. *)
Theorem Parse_full u b raw : full (Parse ParseIP u b raw) = raw.
Proof.
  unfold Parse. case_match; [done|].
  destruct (parseSplit_frame u b raw) as (_ & Hf & _).
  repeat case_match; simpl; done.
Qed.

(** C6. After [Parse(true, raw)], a CONNECT target, the scheme, path,
    queries and fragments are all empty (only [host] and [full] carry
    bytes, the host being the one the sub-parsers found), and
    [PathWithQueryFragment()] returns the empty slice. *)
Theorem Parse_connect u raw :
  let v := Parse ParseIP u true raw in
  scheme v = [] /\ path v = [] /\ queries v = [] /\ fragments v = [] /\
  full v = raw /\
  host v = (if len raw =? 0 then [] else host (parseSplit u true raw)) /\
  isConnect v = true /\
  (PathWithQueryFragment v).1 = [].
Proof.
  unfold Parse. case_match; [done|].
  destruct (parseSplit_frame u true raw) as (Hc & Hf & _ & _ & Hp).
  unfold PathWithQueryFragment. simpl. rewrite Hp, Hf, Hc. done.
Qed.

(** *** [ParseHostWithPort] *)

(** The test [hasPortFuncByte]: some [':'] comes after the last [']']. *)
Lemma hasPortFuncByte_true (s : bytes) :
  hasPortFuncByte s = true <->
  exists a b, s = a ++ ":"%char :: b /\ (":"%char ∉ b) /\ ("]"%char ∉ b).
Proof.
  unfold hasPortFuncByte. split.
  - intros H.
    destruct (LastIndexByteP s ":") as [Hn | a b Heq Hb].
    { pose proof (LastIndexByte_ge s "]"). lia. }
    subst s.
    exists a, b. split_and!; [done..|].
    intros Hin. rewrite LastIndexByte_app in H.
    assert (0 <= LastIndexByte b "]") as Hb0 by by apply LastIndexByte_in.
    simpl in H. destruct (0 <=? LastIndexByte b "]") eqn:E; [|lia].
    destruct (0 <=? LastIndexByte b "]" + 1) eqn:E'; lia.
  - intros (a & b & -> & Hc & Hb).
    rewrite (LastIndexByte_last a b ":") by done.
    rewrite LastIndexByte_app. simpl.
    rewrite (LastIndexByte_notin b "]") by done. simpl.
    pose proof (LastIndexByte_lt a "]"). lia.
Qed.

Lemma hasPortFuncByte_nil : hasPortFuncByte [] = false.
Proof. reflexivity. Qed.

Lemma at_0_app_cons (d : bytes) c p : c ∉ d -> at_ (d ++ ":"%char :: p) 0 <> c \/ c = ":"%char.
Proof.
  intros Hd. destruct d as [|x d]; simpl.
  - destruct (decide (c = ":"%char)); [by right | left]. by intros <-.
  - left. intros <-. apply Hd. apply list_elem_of_here.
Qed.

(** [net.SplitHostPort] on [domain:port] without brackets or further
    colons. *)
Lemma SplitHostPort_plain (d p : bytes) :
  ":"%char ∉ d -> "["%char ∉ d -> "]"%char ∉ d ->
  ":"%char ∉ p -> "["%char ∉ p -> "]"%char ∉ p ->
  SplitHostPort (d ++ ":"%char :: p) = inl (d, p).
Proof.
  intros Hd1 Hd2 Hd3 Hp1 Hp2 Hp3. unfold SplitHostPort.
  rewrite (LastIndexByte_last d p ":") by done.
  pose proof (len_nonneg d). destruct (len d <? 0) eqn:E; [lia|].
  destruct (at_0_app_cons d "[" p Hd2) as [Hne | ?]; [|done].
  rewrite bool_decide_eq_false_2 by done.
  rewrite upto_len_app, (IndexByte_notin d ":") by done. simpl.
  rewrite !from_0.
  rewrite (IndexByte_notin _ "["), (IndexByte_notin _ "]");
    [| rewrite not_elem_of_app, not_elem_of_cons; done ..].
  simpl. do 2 f_equal.
  change (d ++ ":"%char :: p) with (d ++ [":"%char] ++ p).
  rewrite app_assoc.
  replace (len d + 1) with (len (d ++ [":"%char])) by (rewrite len_app; done).
  apply from_len_app.
Qed.

(** [net.SplitHostPort] on a bracketed literal followed by a port. *)
Lemma SplitHostPort_bracket (a p : bytes) :
  "["%char ∉ a -> "]"%char ∉ a ->
  ":"%char ∉ p -> "["%char ∉ p -> "]"%char ∉ p ->
  SplitHostPort ("["%char :: a ++ "]"%char :: ":"%char :: p) = inl (a, p).
Proof.
  intros Ha1 Ha2 Hp1 Hp2 Hp3.
  pose proof (len_nonneg a). pose proof (len_nonneg p).
  set (hp := "["%char :: a ++ "]"%char :: ":"%char :: p).
  assert (E1 : hp = ("["%char :: a ++ ["]"%char]) ++ ":"%char :: p)
    by (unfold hp; simpl; by rewrite <- app_assoc).
  assert (E2 : hp = ("["%char :: a) ++ "]"%char :: ":"%char :: p) by done.
  assert (L1 : len ("["%char :: a ++ ["]"%char]) = len a + 2).
  { rewrite len_cons, len_app, len_cons. change (len (@nil ascii)) with 0. lia. }
  assert (Hi : LastIndexByte hp ":" = len a + 2).
  { rewrite E1, LastIndexByte_last by done. done. }
  assert (Hend : IndexByte hp "]" = len a + 1).
  { rewrite E2, IndexByte_first by (rewrite not_elem_of_cons; done).
    by rewrite len_cons. }
  assert (Hlen : len hp = len a + 3 + len p).
  { rewrite E1, len_app, L1, len_cons. lia. }
  assert (H1 : from hp 1 = a ++ "]"%char :: ":"%char :: p) by done.
  assert (Hk : forall k, 0 <= k -> from hp (len a + 2 + k) = from (":"%char :: p) k).
  { intros k Hk. rewrite E1, <- L1. by apply from_len_app_add. }
  unfold SplitHostPort. fold hp. rewrite Hi, Hend, Hlen, H1.
  change (at_ hp 0) with "["%char.
  rewrite bool_decide_eq_true_2 by done.
  destruct (len a + 2 <? 0) eqn:E; [lia|]. clear E.
  destruct (len a + 1 <? 0) eqn:E; [lia|]. clear E.
  destruct (len a + 1 + 1 =? len a + 3 + len p) eqn:E; [lia|]. clear E.
  destruct (len a + 1 + 1 =? len a + 2) eqn:E; [|lia]. clear E.
  replace (len a + 1 - 1) with (len a) by lia.
  rewrite upto_len_app. simpl. rewrite H1.
  rewrite (IndexByte_notin (a ++ _) "[")
    by (rewrite not_elem_of_app, !not_elem_of_cons; done).
  replace (len a + 1 + 1) with (len a + 2 + 0) by lia.
  rewrite (Hk 0), from_0 by lia.
  rewrite (IndexByte_notin (_ :: p) "]") by (rewrite not_elem_of_cons; done).
  rewrite (Hk 1) by lia. done.
Qed.

(** C10. When [net.SplitHostPort] fails on a string that has a port
    separator (a [':'] after the last [']']), [ParseHostWithPort] leaves
    the [HostInfo] entirely reset: domain, port, hostWithPort and
    targetWithPort are empty and ip is nil, whatever it held before. *)
Theorem ParseHostWithPort_split_error h (s : bytes) (isHTTPS : bool) (why : bytes) :
  hasPortFuncByte s = true ->
  SplitHostPort s = inr why ->
  ParseHostWithPort ParseIP h s isHTTPS = mkHostInfo [] None [] [] [].
Proof.
  intros Hp He. unfold ParseHostWithPort.
  destruct s as [|x s]; [done|].
  rewrite len_eqb_cons, Hp, He. done.
Qed.

(** Without a port separator the whole string is the domain and the port
    is the default of the protocol. *)
Lemma ParseHostWithPort_default h (s : bytes) (isHTTPS : bool) :
  s <> [] -> hasPortFuncByte s = false ->
  let h' := ParseHostWithPort ParseIP h s isHTTPS in
  domain h' = s /\ port h' = (if isHTTPS then B "443" else B "80") /\
  hostWithPort h' = s ++ B ":" ++ (if isHTTPS then B "443" else B "80") /\
  targetWithPort h' = hostWithPort h'.
Proof.
  intros Hs Hp. unfold ParseHostWithPort.
  rewrite (len_eqb_false s Hs), Hp. simpl.
  rewrite (len_eqb_false s Hs). done.
Qed.

(** Whenever a domain comes out, the host with port is made of it. *)
Lemma ParseHostWithPort_domain h (s : bytes) (isHTTPS : bool) :
  let h' := ParseHostWithPort ParseIP h s isHTTPS in
  s <> [] -> domain h' <> [] ->
  hostWithPort h' = domain h' ++ B ":" ++ port h'.
Proof.
  unfold ParseHostWithPort. intros Hs.
  rewrite (len_eqb_false s Hs).
  destruct (negb (hasPortFuncByte s)); simpl.
  - rewrite (len_eqb_false s Hs). done.
  - destruct (SplitHostPort s) as [[d p] | why]; simpl; [|done].
    destruct (len d =? 0) eqn:E; simpl; [|done].
    apply len_eqb_nil in E. done.
Qed.

(** *** Schemes *)

Lemma splitScheme_Some (s sch rem : bytes) :
  splitScheme s = Some (sch, rem) <->
  s = sch ++ ":"%char :: rem /\ Forall (fun c => schemeByte c = true) sch.
Proof.
  unfold splitScheme. split.
  - intros H. pose proof (leading_trailing schemeByte s) as Hs.
    destruct (trailing schemeByte s) as [|c r]; [done|].
    case_bool_decide; [|done]. simplify_eq.
    split; [done | apply leading_Forall].
  - intros [-> Hsch].
    rewrite trailing_app, leading_app by done.
    rewrite trailing_stop, leading_stop, app_nil_r by done.
    by rewrite bool_decide_eq_true_2.
Qed.

Lemma schemeByte_notin (c : ascii) (s : bytes) :
  schemeByte c = false -> Forall (fun c => schemeByte c = true) s -> c ∉ s.
Proof.
  intros Hc Hs Hin. rewrite Forall_forall in Hs. specialize (Hs c Hin). congruence.
Qed.

Lemma first_colon_conflict (sch rem a b : bytes) (c : ascii) :
  sch ++ ":"%char :: rem = a ++ c :: b ->
  Forall (fun c => schemeByte c = true) sch ->
  ":"%char ∉ a -> schemeByte c = false -> c <> ":"%char -> False.
Proof.
  intros Heq Hsch Ha Hc Hne.
  apply app_eq_inv in Heq as [(k & -> & Hk) | (k & -> & Hk)].
  - destruct k as [|x k]; simplify_eq/=.
    apply Forall_app in Hsch as [_ Hsch]. apply Forall_cons in Hsch as [Hx _].
    congruence.
  - destruct k as [|x k]; simplify_eq/=.
    apply Ha. rewrite elem_of_app, elem_of_cons. auto.
Qed.

Lemma Parse_scheme u raw :
  scheme (Parse ParseIP u false raw) =
  match splitScheme (before "?" (before "#" raw)) with
  | Some (sch, _) => sch
  | None => []
  end.
Proof.
  destruct raw as [|x raw]; [done|].
  rewrite Parse_closed by done. unfold parts.
  destruct (splitScheme _) as [[sch rem]|]; done.
Qed.

(** C4. [Parse] recognizes a scheme exactly when the target begins with
    one or more ASCII letters or digits followed by [':']; the scheme is
    then those bytes.  A target whose first byte is [':'] has no scheme,
    and a byte that is neither a letter, a digit nor the colon, met before
    the first colon, means that no scheme is recognized. *)
Theorem Parse_scheme_recognized u raw :
  (forall s rest, s <> [] -> Forall (fun c => schemeByte c = true) s ->
     raw = s ++ ":"%char :: rest ->
     scheme (Parse ParseIP u false raw) = s /\ getSchemeIndex raw = len s) /\
  (scheme (Parse ParseIP u false raw) <> [] ->
     exists s rest, s <> [] /\ Forall (fun c => schemeByte c = true) s /\
       raw = s ++ ":"%char :: rest) /\
  (forall rest, raw = ":"%char :: rest -> scheme (Parse ParseIP u false raw) = []) /\
  (forall a c b, raw = a ++ c :: b -> ":"%char ∉ a ->
     schemeByte c = false -> c <> ":"%char ->
     scheme (Parse ParseIP u false raw) = [] /\ getSchemeIndex raw = -1).
Proof.
  assert (Hinv : scheme (Parse ParseIP u false raw) <> [] ->
     exists s rest, s <> [] /\ Forall (fun c => schemeByte c = true) s /\
       raw = s ++ ":"%char :: rest).
  { rewrite Parse_scheme. intros Hne.
    destruct (splitScheme _) as [[sch rem]|] eqn:E; [|done].
    apply splitScheme_Some in E as [E Hsch].
    exists sch, (rem ++ since "?" (before "#" raw) ++ since "#" raw).
    split_and!; [done..|].
    rewrite <- (before_since "#" raw) at 1.
    rewrite <- (before_since "?" (before "#" raw)) at 1.
    rewrite E, <- !app_assoc. done. }
  split_and!.
  - intros s rest Hs Hsch ->. split.
    + rewrite Parse_scheme.
      assert (Hn : forall c, schemeByte c = false -> c <> ":"%char ->
                 c ∉ s ++ [":"%char]).
      { intros c Hc Hne. rewrite not_elem_of_app, not_elem_of_cons.
        split_and!; [by apply schemeByte_notin | done | apply not_elem_of_nil]. }
      change (s ++ ":"%char :: rest) with (s ++ [":"%char] ++ rest).
      rewrite app_assoc, (before_app "#") by (by apply Hn).
      rewrite (before_app "?") by (by apply Hn).
      rewrite <- app_assoc.
      rewrite (proj2 (splitScheme_Some _ s (before "?" (before "#" rest)))); done.
    + pose proof (getSchemeIndex_closed (s ++ ":"%char :: rest)) as Hg.
      rewrite (proj2 (splitScheme_Some _ s rest)) in Hg by done. tauto.
  - exact Hinv.
  - intros rest ->.
    destruct (decide (scheme (Parse ParseIP u false (":"%char :: rest)) = []))
      as [|Hne]; [done|].
    destruct (Hinv Hne) as (s & r & Hs & Hsch & Heq).
    destruct s as [|x s]; [done|]. simplify_eq/=.
    apply Forall_cons in Hsch as [Hx _]. done.
  - intros a c b -> Ha Hc Hne. split.
    + destruct (decide (scheme (Parse ParseIP u false (a ++ c :: b)) = []))
        as [|Hs]; [done|].
      destruct (Hinv Hs) as (s & r & _ & Hsch & Heq).
      exfalso. symmetry in Heq. eapply first_colon_conflict; eauto.
    + pose proof (getSchemeIndex_closed (a ++ c :: b)) as Hg.
      destruct (splitScheme (a ++ c :: b)) as [[sch rem]|] eqn:E; [|done].
      apply splitScheme_Some in E as [E Hsch].
      exfalso. symmetry in E. eapply first_colon_conflict; eauto.
Qed.

(** *** The default path *)

Lemma trailing_elem p (s : bytes) x : x ∈ trailing p s -> x ∈ s.
Proof.
  intros H. rewrite <- (leading_trailing p s), elem_of_app. by right.
Qed.

Lemma leading_elem p (s : bytes) x : x ∈ leading p s -> x ∈ s.
Proof.
  intros H. rewrite <- (leading_trailing p s), elem_of_app. by left.
Qed.

Lemma afterSlashes_elem (sch rem : bytes) x : x ∈ afterSlashes sch rem -> x ∈ rem.
Proof. unfold afterSlashes. case_match; [apply trailing_elem | done]. Qed.

Lemma getSchemeIndex_none (s : bytes) : getSchemeIndex s = -1 <-> splitScheme s = None.
Proof.
  pose proof (getSchemeIndex_closed s) as Hg.
  destruct (splitScheme s) as [[sch rem]|]; [|done].
  destruct Hg as [Hg _]. pose proof (len_nonneg sch). split; [lia | done].
Qed.

Lemma afterSlashes_nil (rem : bytes) : afterSlashes [] rem = rem.
Proof. reflexivity. Qed.

(** C3 (as the code has it).  After [Parse(false, raw)] with [raw] not
    empty, the path is "/" whenever the sub-parsers found no path, and the
    path they found otherwise; they find none when [raw] has no slash at
    all, in particular when [raw] is only a host. *)
Theorem Parse_path_default u raw :
  raw <> [] ->
  let found := path (parseSplit u false raw) in
  let v := Parse ParseIP u false raw in
  (found = [] -> path v = B "/") /\
  (found <> [] -> path v = found) /\
  ("/"%char ∉ raw -> path v = B "/") /\
  ("/"%char ∉ raw -> "?"%char ∉ raw -> "#"%char ∉ raw -> getSchemeIndex raw = -1 ->
     host v = raw /\ path v = B "/").
Proof.
  intros Hr found v.
  assert (Hv : path v = if len found =? 0 then B "/" else found).
  { unfold v, found. rewrite Parse_closed, parseSplit_closed by done.
    destruct (parts raw) as [[[[sch hst] pth] qry] frag]. done. }
  assert (Hslash : "/"%char ∉ raw -> found = []).
  { intros Hn. unfold found. rewrite parseSplit_closed. unfold parts.
    set (body := before "?" (before "#" raw)).
    assert (Hb : "/"%char ∉ body).
    { intros Hin. apply Hn. unfold body in Hin.
      by do 2 apply leading_elem in Hin. }
    destruct (splitScheme body) as [[sch rem]|] eqn:E; fields.
    - apply splitScheme_Some in E as [E _]. apply since_all.
      intros Hin%afterSlashes_elem. apply Hb. rewrite E, elem_of_app, elem_of_cons. auto.
    - apply since_all. by intros Hin%afterSlashes_elem. }
  split_and!.
  - intros Hf. by rewrite Hv, Hf.
  - intros Hf. by rewrite Hv, (len_eqb_false _ Hf).
  - intros Hn. by rewrite Hv, (Hslash Hn).
  - intros Hn Hq Hf Hg. split; [|by rewrite Hv, (Hslash Hn)].
    unfold v. rewrite Parse_closed by done. unfold parts.
    rewrite (before_all "#" raw), (before_all "?" raw) by done.
    apply getSchemeIndex_none in Hg. rewrite Hg, afterSlashes_nil. fields.
    by apply before_all.
Qed.

(** *** Slashes in front of the authority *)

Lemma parts_app (pre rest : bytes) :
  "#"%char ∉ pre -> "?"%char ∉ pre ->
  parts (pre ++ rest) =
  let r1 := before "#" rest in
  let r2 := before "?" r1 in
  let '(sch, rem) :=
    match splitScheme (pre ++ r2) with Some x => x | None => ([], pre ++ r2) end in
  let r := afterSlashes sch rem in
  (sch, before "/" r, since "/" r, since "?" r1, since "#" rest).
Proof.
  intros Hf Hq. unfold parts.
  rewrite (before_app "#"), (since_app "#") by done.
  rewrite (before_app "?"), (since_app "?") by done. done.
Qed.

Lemma head_leading p (s : bytes) x : head (leading p s) = Some x -> head s = Some x.
Proof. destruct s as [|y s]; simpl; [done|]. by destruct (p y). Qed.

Lemma trailing_isSlash_keep (r : bytes) :
  head r <> Some "/"%char -> trailing isSlash r = r.
Proof.
  destruct r as [|x r]; [done|]. intros H. apply trailing_stop.
  unfold isSlash. apply bool_decide_eq_false_2. intros ->. done.
Qed.

Lemma afterSlashes_keep (sch r : bytes) :
  head r <> Some "/"%char -> afterSlashes sch r = r.
Proof.
  intros H. unfold afterSlashes. destruct r as [|x r].
  - rewrite andb_false_r. done.
  - rewrite at_0_cons, (bool_decide_eq_false_2 (x = "/"%char)) by (intros ->; done).
    rewrite andb_false_r. done.
Qed.

Lemma afterSlashes_strip (sch r : bytes) (k : nat) :
  sch <> [] -> (2 <= k)%nat -> head r <> Some "/"%char ->
  afterSlashes sch (replicate k "/"%char ++ r) = r.
Proof.
  intros Hs Hk Hr. destruct k as [|[|k]]; [lia..|]. unfold afterSlashes.
  simpl replicate. simpl app. rewrite at_0_cons, at_1_cons, !len_cons.
  rewrite !bool_decide_eq_true_2 by done.
  destruct sch as [|c sch]; [done|]. rewrite len_cons.
  pose proof (len_nonneg sch). pose proof (len_nonneg (replicate k "/"%char ++ r)).
  destruct (0 <? len sch + 1) eqn:E1; [|lia].
  destruct (2 <=? len (replicate k "/"%char ++ r) + 1 + 1) eqn:E2; [|lia].
  simpl andb. cbv iota.
  change ("/"%char :: "/"%char :: replicate k "/"%char ++ r)
    with (replicate (S (S k)) "/"%char ++ r).
  rewrite trailing_app by (by apply Forall_replicate).
  by apply trailing_isSlash_keep.
Qed.

Lemma scheme_prefix_notin (sch : bytes) (k : nat) (c : ascii) :
  Forall (fun c => schemeByte c = true) sch ->
  schemeByte c = false -> c <> ":"%char -> c <> "/"%char ->
  c ∉ sch ++ ":"%char :: replicate k "/"%char.
Proof.
  intros Hsch Hc H1 H2. rewrite not_elem_of_app, not_elem_of_cons.
  split_and!; [by apply schemeByte_notin | done |].
  intros Hin%elem_of_replicate_inv. done.
Qed.

(** C5 (as the code has it).  For a target made of a scheme, [':'] and a
    remainder that starts with two slashes or more, [Parse] consumes all
    the leading slashes, leaving none, and takes the host/path split from
    what remains: every part is that of the same target written without
    those slashes. *)
Theorem Parse_double_slash u (b : bool) (sch rest : bytes) (k : nat) :
  sch <> [] -> Forall (fun c => schemeByte c = true) sch ->
  (2 <= k)%nat -> head rest <> Some "/"%char ->
  let v := Parse ParseIP u b (sch ++ ":"%char :: replicate k "/"%char ++ rest) in
  let w := Parse ParseIP u b (sch ++ ":"%char :: rest) in
  scheme v = scheme w /\ host v = host w /\ path v = path w /\
  queries v = queries w /\ fragments v = fragments w /\ hostInfo v = hostInfo w.
Proof.
  intros Hs Hsch Hk Hr v w.
  assert (Hp : parts (sch ++ ":"%char :: replicate k "/"%char ++ rest)
               = parts (sch ++ ":"%char :: rest)).
  { replace (sch ++ ":"%char :: replicate k "/"%char ++ rest)
      with ((sch ++ ":"%char :: replicate k "/"%char) ++ rest)
      by (by rewrite <- app_assoc).
    replace (sch ++ ":"%char :: rest)
      with ((sch ++ ":"%char :: replicate 0 "/"%char) ++ rest)
      by (by rewrite <- app_assoc).
    rewrite !parts_app by (by apply scheme_prefix_notin). cbv zeta.
    set (r2 := before "?" (before "#" rest)).
    assert (Hr2 : head r2 <> Some "/"%char).
    { intros H. by do 2 apply head_leading in H. }
    rewrite <- !app_assoc. simpl app.
    rewrite (proj2 (splitScheme_Some _ sch (replicate k "/"%char ++ r2))) by done.
    rewrite (proj2 (splitScheme_Some _ sch r2)) by done.
    rewrite afterSlashes_strip, afterSlashes_keep by done. done. }
  unfold v, w. rewrite !Parse_closed by (by destruct sch).
  rewrite Hp. clear Hp.
  destruct (parts (sch ++ ":"%char :: rest)) as [[[[s1 hst] pth] qry] frag].
  destruct b; done.
Qed.

(** *** Where the host stands in the target *)

Lemma delimited_body (rest : bytes) :
  delimited rest ->
  let r2 := before "?" (before "#" rest) in
  r2 = [] \/ exists r, r2 = "/"%char :: r.
Proof.
  intros [-> | (c & r & -> & [-> | [-> | ->]])]; simpl; eauto.
Qed.

Lemma splitScheme_app_delim (hst r0 : bytes) :
  r0 = [] \/ (exists r, r0 = "/"%char :: r) ->
  splitScheme (hst ++ r0) = None <-> splitScheme hst = None.
Proof.
  intros Hr0. unfold splitScheme.
  rewrite <- (leading_trailing schemeByte hst) at 1.
  rewrite <- app_assoc, trailing_app by apply leading_Forall.
  destruct (trailing_head schemeByte hst) as [Ht | (c & t & Ht & Hc)]; rewrite Ht.
  - simpl. destruct Hr0 as [-> | [r ->]]; simpl; done.
  - simpl app. rewrite trailing_stop by done. by case_bool_decide.
Qed.

Lemma splitScheme_before (c : ascii) (s : bytes) :
  splitScheme s = None -> splitScheme (before c s) = None.
Proof.
  intros Hn. destruct (splitScheme (before c s)) as [[sch rem]|] eqn:E; [|done].
  apply splitScheme_Some in E as [E Hsch].
  assert (splitScheme s = Some (sch, rem ++ since c s)) as Hs; [|congruence].
  apply splitScheme_Some. split; [|done].
  rewrite <- (before_since c s) at 1. rewrite E, <- app_assoc. done.
Qed.

Lemma leading_isSlash_replicate (s : bytes) :
  leading isSlash s = replicate (length (leading isSlash s)) "/"%char.
Proof.
  induction s as [|x s IH]; simpl; [done|].
  destruct (isSlash x) eqn:E; simpl; [|done].
  unfold isSlash in E. apply bool_decide_eq_true in E. subst. by f_equal.
Qed.

Lemma located_prefix_notin (pre hst rest : bytes) (c : ascii) :
  located pre hst rest ->
  schemeByte c = false -> c <> ":"%char -> c <> "/"%char -> c ∉ pre.
Proof.
  intros (_ & _ & _ & _ & _ & [[-> _] | (sch & k & -> & Hsch & _)]) Hc H1 H2.
  - apply not_elem_of_nil.
  - by apply scheme_prefix_notin.
Qed.

Lemma head_app_nonempty (a b : bytes) : a <> [] -> head (a ++ b) = head a.
Proof. by destruct a. Qed.

Lemma head_notin (a : bytes) c : c ∉ a -> head a <> Some c.
Proof.
  destruct a as [|x a]; [done|]. simpl. intros Hn [= ->]. apply Hn, list_elem_of_here.
Qed.

Lemma before_delim c (hst r2 : bytes) :
  c ∉ hst -> r2 = [] \/ (exists r, r2 = c :: r) -> before c (hst ++ r2) = hst.
Proof.
  intros Hn Hr. rewrite before_app by done.
  destruct Hr as [-> | [r ->]].
  - simpl. by rewrite app_nil_r.
  - by rewrite before_cons_eq, app_nil_r.
Qed.

(** The parser finds the host where [located] says it stands. *)
Lemma parts_located (pre hst rest : bytes) :
  located pre hst rest ->
  exists sch pth qry frag, parts (pre ++ hst ++ rest) = (sch, hst, pth, qry, frag).
Proof.
  intros Hloc.
  pose proof (located_prefix_notin pre hst rest "#" Hloc eq_refl ltac:(done) ltac:(done)) as Hp1.
  pose proof (located_prefix_notin pre hst rest "?" Hloc eq_refl ltac:(done) ltac:(done)) as Hp2.
  destruct Hloc as (Hne & Hs & Hq & Hf & Hd & Hpre).
  rewrite app_assoc, parts_app by (rewrite not_elem_of_app; done). cbv zeta.
  pose proof (delimited_body rest Hd) as Hr2. cbv zeta in Hr2.
  set (r2 := before "?" (before "#" rest)) in *.
  destruct Hpre as [[-> Hn] | (sch & k & -> & Hsch & Hk)].
  - simpl app. rewrite (proj2 (splitScheme_app_delim hst r2 Hr2) Hn).
    rewrite afterSlashes_nil, before_delim by done. eauto.
  - assert (Ha : ((sch ++ ":"%char :: replicate k "/"%char) ++ hst) ++ r2
                 = sch ++ ":"%char :: replicate k "/"%char ++ hst ++ r2)
      by (by rewrite <- !app_assoc).
    rewrite Ha.
    rewrite (proj2 (splitScheme_Some _ sch (replicate k "/"%char ++ hst ++ r2))) by done.
    assert (Hh : head (hst ++ r2) <> Some "/"%char).
    { rewrite head_app_nonempty by done. by apply head_notin. }
    destruct Hk as [-> | [Hk Hsn]].
    + simpl app. rewrite afterSlashes_keep, before_delim by done. eauto.
    + rewrite afterSlashes_strip, before_delim by done. eauto.
Qed.

Lemma elem_of_afterSlashes_body (c : ascii) (raw sch rem : bytes) :
  splitScheme (before "?" (before "#" raw)) = Some (sch, rem) ->
  (c = "?"%char \/ c = "#"%char) -> c ∉ rem.
Proof.
  intros E Hc Hin. apply splitScheme_Some in E as [E _].
  assert (Hb : c ∈ before "?" (before "#" raw))
    by (rewrite E, elem_of_app, elem_of_cons; auto).
  destruct Hc as [-> | ->].
  - by apply before_notin in Hb.
  - apply leading_elem in Hb. by apply before_notin in Hb.
Qed.

(** Conversely, the host the parser finds stands at such a place. *)
Lemma located_parts (raw sch hst pth qry frag : bytes) :
  parts raw = (sch, hst, pth, qry, frag) -> hst <> [] ->
  exists pre rest, raw = pre ++ hst ++ rest /\ located pre hst rest /\
    (splitScheme (before "?" (before "#" raw)) = None -> pre = []).
Proof.
  unfold parts. intros Hp Hne.
  set (body := before "#" raw) in *. set (body2 := before "?" body) in *.
  assert (Hraw : raw = body2 ++ since "?" body ++ since "#" raw).
  { unfold body2, body. by rewrite app_assoc, !before_since. }
  assert (Hdel : forall p, p = [] \/ (exists r, p = "/"%char :: r) ->
            delimited (p ++ since "?" body ++ since "#" raw)).
  { intros p [-> | [r ->]]; [|right; eauto 10]. simpl.
    destruct (since_head "?" body) as [-> | [r ->]]; [|right; eauto 10]. simpl.
    destruct (since_head "#" raw) as [-> | [r ->]]; [by left | right; eauto 10]. }
  destruct (splitScheme body2) as [[sch' rem]|] eqn:E.
  - pose proof (elem_of_afterSlashes_body "?" raw sch' rem E ltac:(auto)) as Hq.
    pose proof (elem_of_afterSlashes_body "#" raw sch' rem E ltac:(auto)) as Hf.
    pose proof E as E'. apply splitScheme_Some in E' as [Hb Hsch].
    simplify_eq.
    set (r := afterSlashes sch rem) in *.
    assert (Hr : exists k, rem = replicate k "/"%char ++ r /\
                   (k = 0%nat \/ ((2 <= k)%nat /\ sch <> []))).
    { unfold r, afterSlashes.
      destruct ((0 <? len sch) && (2 <=? len rem)
                && bool_decide (at_ rem 0 = "/"%char)
                && bool_decide (at_ rem 1 = "/"%char)) eqn:C.
      - rewrite !andb_true_iff, !bool_decide_eq_true in C.
        destruct C as (((C1 & _) & C3) & C4).
        exists (length (leading isSlash rem)). split.
        + rewrite <- leading_isSlash_replicate. by rewrite leading_trailing.
        + right. split; [|intros ->; done].
          destruct rem as [|x [|y rem']]; [done..|].
          change (x = "/"%char) in C3. change (y = "/"%char) in C4. subst.
          simpl. lia.
      - exists 0%nat. split; [done | by left]. }
    destruct Hr as (k & Hrem & Hk).
    exists (sch ++ ":"%char :: replicate k "/"%char),
           (since "/" r ++ since "?" body ++ since "#" raw).
    assert (Hin : forall c, c ∈ before "/" r -> c ∈ rem).
    { intros c Hc%leading_elem. by apply afterSlashes_elem in Hc. }
    split_and!.
    + rewrite (app_assoc (before "/" r)), before_since.
      rewrite Hraw at 1. rewrite Hb, <- !app_assoc. simpl. do 2 f_equal.
      rewrite Hrem at 1. by rewrite <- app_assoc.
    + split_and!; [done | apply before_notin | by intros Hc%Hin | by intros Hc%Hin | |].
      * apply Hdel. destruct (since_head "/" r) as [-> | ?]; eauto.
      * right. eauto.
    + congruence.
  - simplify_eq. rewrite afterSlashes_nil in *.
    exists [], (since "/" body2 ++ since "?" body ++ since "#" raw).
    assert (Hsl : since "/" body2 = [] \/ (exists r, since "/" body2 = "/"%char :: r))
      by (destruct (since_head "/" body2) as [-> | ?]; eauto).
    split_and!; [| |done].
    + simpl. rewrite Hraw at 1. by rewrite !app_assoc, before_since.
    + split_and!; [done | apply before_notin | | | by apply Hdel |].
      * intros Hc%leading_elem. by apply before_notin in Hc.
      * intros Hc%leading_elem. apply leading_elem in Hc. by apply before_notin in Hc.
      * left. split; [done|].
        apply (splitScheme_app_delim _ (since "/" body2) Hsl).
        by rewrite before_since.
Qed.

(** The bytes a scheme, its colon and the slashes behind it are made of. *)
Lemma marked_not_prefix_kind (hst : bytes) :
  marked hst = true -> "/"%char ∉ hst ->
  ~ Forall (fun c => schemeByte c = true \/ c = ":"%char \/ c = "/"%char) hst.
Proof.
  unfold marked. intros Hm Hs Hall.
  apply existsb_exists in Hm as (c & Hin & Hc).
  apply list_elem_of_In in Hin.
  rewrite Forall_forall in Hall. specialize (Hall c Hin).
  apply andb_true_iff in Hc as [Hc1 Hc2].
  apply negb_true_iff in Hc1. unfold isNot in Hc2.
  apply negb_true_iff, bool_decide_eq_false in Hc2.
  destruct Hall as [? | [? | ->]]; [congruence | done | done].
Qed.

(** The first instance of the host in the target is the host itself. *)
Lemma Index_located (pre hst rest : bytes) :
  located pre hst rest -> pre = [] \/ marked hst = true ->
  Index (pre ++ hst ++ rest) hst = len pre.
Proof.
  intros (_ & Hs & _ & _ & _ & Hpre) Hm.
  destruct Hpre as [[-> _] | (sch & k & -> & Hsch & _)];
    [apply (Index_prefix hst rest)|].
  destruct Hm as [Hm | Hm]; [by destruct sch|].
  apply (Index_after (fun c => schemeByte c = true \/ c = ":"%char \/ c = "/"%char)).
  - apply Forall_app. split.
    + eapply Forall_impl; [exact Hsch | auto].
    + apply Forall_cons. split; [auto|].
      apply Forall_replicate. auto.
  - by apply marked_not_prefix_kind.
Qed.

Lemma plain_notin (s : bytes) (c : ascii) :
  plain s = true -> reserved c = true -> c ∉ s.
Proof.
  unfold plain. intros Hp Hc Hin.
  rewrite forallb_forall in Hp. apply list_elem_of_In in Hin.
  specialize (Hp c Hin). rewrite Hc in Hp. done.
Qed.

(** What is asked of the new host [d:prt]. *)
Lemma new_host_facts h (d prt : bytes) :
  plain d = true -> marked d = true -> plain prt = true ->
  let hp := d ++ ":"%char :: prt in
  hp <> [] /\ ("/"%char ∉ hp) /\ ("?"%char ∉ hp) /\ ("#"%char ∉ hp) /\
  splitScheme hp = None /\ marked hp = true /\
  hostWithPort (ParseHostWithPort ParseIP h hp false) = hp.
Proof.
  intros Hd Hm Hp hp.
  assert (Hn : forall c, reserved c = true -> c <> ":"%char -> c ∉ hp).
  { intros c Hc Hne. unfold hp. rewrite not_elem_of_app, not_elem_of_cons.
    split_and!; [by apply plain_notin | done | by apply plain_notin]. }
  assert (Hdne : d <> []) by (intros ->; done).
  split_and!; [by destruct d | by apply Hn .. | | |].
  - destruct (splitScheme hp) as [[sch rem]|] eqn:E; [exfalso|done].
    apply splitScheme_Some in E as [E Hsch].
    unfold marked in Hm. apply existsb_exists in Hm as (c & Hin & Hc).
    apply list_elem_of_In, list_elem_of_split_l in Hin as (d1 & d2 & -> & _).
    apply andb_true_iff in Hc as [Hc1 Hc2].
    apply negb_true_iff in Hc1. unfold isNot in Hc2.
    apply negb_true_iff, bool_decide_eq_false in Hc2.
    unfold hp in E. rewrite <- app_assoc in E. simpl in E. symmetry in E.
    eapply (first_colon_conflict sch rem d1 _ c E); [done | | done..].
    intros Hin. apply (plain_notin _ ":" Hd eq_refl).
    rewrite elem_of_app. by left.
  - unfold marked, hp in *. rewrite existsb_app, Hm. done.
  - unfold ParseHostWithPort.
    rewrite (len_eqb_false hp) by (by destruct d).
    assert (Hhp : hasPortFuncByte hp = true).
    { apply hasPortFuncByte_true. exists d, prt.
      split_and!; [done | by apply plain_notin ..]. }
    rewrite Hhp. simpl negb. cbv iota. unfold hp.
    rewrite SplitHostPort_plain by (by apply plain_notin).
    cbn [domain port]. rewrite (len_eqb_false d Hdne). done.
Qed.

Lemma Parse_located u (pre hst rest : bytes) :
  located pre hst rest ->
  exists sch pth qry frag,
    Parse ParseIP u false (pre ++ hst ++ rest) =
    mkURI false (pre ++ hst ++ rest) sch hst pth qry frag
      (ParseHostWithPort ParseIP (mkHostInfo [] None [] [] []) hst false) [] false.
Proof.
  intros Hloc. pose proof Hloc as (Hne & _).
  destruct (parts_located pre hst rest Hloc) as (sch & pth & qry & frag & Hp).
  rewrite Parse_closed by (destruct pre, hst; done). rewrite Hp. eauto.
Qed.

(** *** [ChangeHost] and [ChangePathWithFragment] *)

Lemma ParseHostWithPort_nil h (b : bool) : ParseHostWithPort ParseIP h [] b = h.
Proof. reflexivity. Qed.

Lemma front_cases (hp raw : bytes) :
  exists rest,
    (if (len raw =? 0) || (0 <? len raw) && negb (bool_decide (at_ raw 0 = "/"%char))
     then hp ++ B "/" else hp) ++ raw = hp ++ rest /\
    exists r, rest = "/"%char :: r.
Proof.
  destruct raw as [|x raw].
  - exists (B "/"). simpl. rewrite app_nil_r. eauto.
  - rewrite len_eqb_cons, at_0_cons, len_cons. pose proof (len_nonneg raw).
    destruct (0 <? len raw + 1) eqn:E; [|lia]. simpl orb. simpl andb.
    case_bool_decide as Hx; simpl negb; cbv iota.
    + subst x. eauto.
    + exists ("/"%char :: x :: raw). rewrite <- app_assoc. eauto.
Qed.

(** After [ChangeHost] with a host [d:prt] the URI is the parse of a
    target in which the host stands alone. *)
Lemma ChangeHost_located u0 raw (d prt : bytes) :
  let hp := d ++ ":"%char :: prt in
  let u := Parse ParseIP u0 false raw in
  host u = [] \/ getSchemeIndex raw = -1 \/ marked (host u) = true ->
  plain d = true -> marked d = true -> plain prt = true ->
  exists pre hst rest,
    ChangeHost ParseIP u hp = Parse ParseIP u0 false (pre ++ hst ++ rest) /\
    located pre hst rest /\ (pre = [] \/ marked hst = true) /\
    hostWithPort (ParseHostWithPort ParseIP (mkHostInfo [] None [] [] []) hst false) = hp.
Proof.
  intros hp u Hu Hd Hm Hp.
  destruct (new_host_facts (mkHostInfo [] None [] [] []) d prt Hd Hm Hp)
    as (Hne & Hs & Hq & Hf & Hsch & Hmk & Hhw). fold hp in Hne, Hs, Hq, Hf, Hsch, Hmk, Hhw.
  assert (Hfront : forall rest, (exists r, rest = "/"%char :: r) ->
            located [] hp rest).
  { intros rest [r ->]. split_and!; [done.. | right; eauto 10 | by left]. }
  destruct raw as [|x raw].
  - (* the empty URI *)
    exists [], hp, (B "/"). split_and!; [| apply Hfront; by eexists | by left | done].
    unfold ChangeHost, u. rewrite Parse_nil. fields. cbn [hostWithPort].
    rewrite bool_decide_eq_false_2 by done.
    simpl. rewrite app_nil_r.
    rewrite (len_eqb_false (hp ++ ["/"%char])) by (by destruct hp). done.
  - set (raw' := x :: raw) in *.
    assert (Hraw : raw' <> []) by done.
    unfold u in *. rewrite (Parse_closed u0 false raw' Hraw) in *.
    destruct (parts raw') as [[[[sch hst] pth] qry] frag] eqn:Hparts.
    unfold ChangeHost. fields.
    case_bool_decide as Hsame.
    + (* the host is the same already *)
      assert (Hh : hst <> []).
      { intros ->. rewrite ParseHostWithPort_nil in Hsame. done. }
      destruct (located_parts raw' sch hst pth qry frag Hparts Hh)
        as (pre & rest & Hraw' & Hloc & Hpre).
      exists pre, hst, rest. split_and!; [| done | | done].
      * rewrite <- Hraw', (Parse_closed u0 false raw' Hraw), Hparts. done.
      * destruct Hu as [? | [Hg | ?]]; [done | left | by right].
        apply Hpre. do 2 apply splitScheme_before. by apply getSchemeIndex_none.
    + destruct hst as [|y hst].
      * (* no host before: the new one goes in front *)
        destruct (front_cases hp raw') as (rest & -> & Hrest).
        exists [], hp, rest. split_and!; [| by apply Hfront | by left | done].
        change (len (@nil ascii) =? 0) with true. cbv iota.
        rewrite (len_eqb_false (hp ++ rest)) by (by destruct hp). done.
      * (* the old host is replaced *)
        destruct (located_parts raw' sch (y :: hst) pth qry frag Hparts ltac:(done))
          as (pre & rest & Hraw' & Hloc & Hpre).
        assert (Hpm : pre = [] \/ marked (y :: hst) = true).
        { destruct Hu as [? | [Hg | ?]]; [done | left | by right].
          apply Hpre. do 2 apply splitScheme_before. by apply getSchemeIndex_none. }
        pose proof (Index_located pre (y :: hst) rest Hloc Hpm) as Hi.
        rewrite <- Hraw' in Hi.
        exists pre, hp, rest. split_and!; [| | by right | done].
        -- rewrite len_eqb_cons, Hi. pose proof (len_nonneg pre).
           destruct (0 <=? len pre) eqn:E; [|lia].
           rewrite (len_eqb_false hp Hne).
           assert (HR : Replace1 raw' (y :: hst) hp = pre ++ hp ++ rest).
           { rewrite Hraw'. apply Replace1_at. by rewrite <- Hraw'. }
           rewrite HR.
           rewrite (len_eqb_false (pre ++ hp ++ rest)) by (destruct pre, hp; done).
           done.
        -- destruct Hloc as (_ & _ & _ & _ & Hdel & Hpre').
           split_and!; [done..|].
           destruct Hpre' as [[-> _] | ?]; [left | by right]. done.
Qed.

Lemma from_after_host (pre hst rest : bytes) :
  from (pre ++ hst ++ rest) (len pre + len hst) = rest.
Proof.
  rewrite app_assoc, <- len_app. apply from_len_app.
Qed.

Lemma upto_after_host (pre hst rest : bytes) :
  upto (pre ++ hst ++ rest) (len pre + len hst) = pre ++ hst.
Proof.
  rewrite app_assoc, <- len_app. apply upto_len_app.
Qed.

Lemma PathWithQueryFragment_located (pre hst rest sch pth qry frag : bytes) h :
  hst <> [] -> Index (pre ++ hst ++ rest) hst = len pre ->
  let v := mkURI false (pre ++ hst ++ rest) sch hst pth qry frag h [] false in
  let cur := if len rest =? 0 then pth else rest in
  PathWithQueryFragment v = (cur, set_pwqf v cur true).
Proof.
  intros Hne Hi v cur. unfold PathWithQueryFragment, v. fields.
  rewrite (len_eqb_false hst Hne), Hi. pose proof (len_nonneg pre).
  destruct (0 <=? len pre) eqn:E; [|lia].
  rewrite from_after_host. done.
Qed.

(** [ChangePathWithFragment] on such a URI, with a path that starts with
    a slash. *)
Lemma ChangePath_located u0 (pre hst rest p hp : bytes) :
  located pre hst rest -> pre = [] \/ marked hst = true ->
  hostWithPort (ParseHostWithPort ParseIP (mkHostInfo [] None [] [] []) hst false) = hp ->
  head p = Some "/"%char ->
  let w := ChangePathWithFragment ParseIP
             (Parse ParseIP u0 false (pre ++ hst ++ rest)) p in
  (PathWithQueryFragment w).1 = p /\ HostWithPort (hostInfo w) = hp.
Proof.
  intros Hloc Hpm Hhp Hp w.
  apply head_Some in Hp as [p' ->].
  pose proof (Index_located pre hst rest Hloc Hpm) as Hi.
  pose proof Hloc as (Hne & Hs & Hq & Hf & Hdel & Hpre).
  destruct (Parse_located u0 pre hst rest Hloc) as (sch & pth & qry & frag & Hv).
  unfold w, ChangePathWithFragment. rewrite Hv. fields.
  rewrite PathWithQueryFragment_located by done.
  set (cur := if len rest =? 0 then pth else rest).
  case_bool_decide as Hsame.
  - (* the path is the same already *)
    unfold PathWithQueryFragment, HostWithPort. fields. done.
  - fields. rewrite (len_eqb_false hst Hne), Hi. pose proof (len_nonneg pre).
    destruct (0 <=? len pre) eqn:E; [|lia].
    rewrite upto_after_host, len_eqb_cons, at_0_cons.
    rewrite bool_decide_eq_true_2 by done. rewrite andb_false_r. simpl orb. cbv iota.
    rewrite <- app_assoc.
    rewrite (len_eqb_false (pre ++ hst ++ "/"%char :: p')) by (destruct pre, hst; done).
    assert (Hloc' : located pre hst ("/"%char :: p')).
    { split_and!; [done.. | right; eauto 10 | done]. }
    pose proof (Index_located pre hst _ Hloc' Hpm) as Hi'.
    destruct (Parse_located
                (set_pwqf (mkURI false (pre ++ hst ++ rest) sch hst pth qry frag
                   (ParseHostWithPort ParseIP (mkHostInfo [] None [] [] []) hst false)
                   [] false) cur true)
                pre hst ("/"%char :: p') Hloc')
      as (sch' & pth' & qry' & frag' & Hw).
    unfold set_pwqf in Hw. cbn [isConnect full scheme host path queries fragments hostInfo] in Hw.
    rewrite Hw.
    rewrite PathWithQueryFragment_located by done.
    rewrite len_eqb_cons. unfold HostWithPort. fields. done.
Qed.

(** C1 (as the code has it).  Take the URI of a non-CONNECT [Parse] whose
    host is empty, or stands at the front of a target without scheme, or
    has a byte that no scheme holds; a new host [d:prt] whose domain [d]
    has such a byte and, like the port, none of [: / ? # \[ \]]; and a
    path [p] that starts with a slash.  After [ChangeHost(d:prt)] then
    [ChangePathWithFragment(p)], [PathWithQueryFragment()] is [p] and
    [HostInfo().HostWithPort()] is [d:prt]. *)
Theorem ChangeHost_ChangePath u0 raw (d prt p : bytes) :
  let hp := d ++ ":"%char :: prt in
  let u := Parse ParseIP u0 false raw in
  host u = [] \/ getSchemeIndex raw = -1 \/ marked (host u) = true ->
  plain d = true -> marked d = true -> plain prt = true ->
  head p = Some "/"%char ->
  let w := ChangePathWithFragment ParseIP (ChangeHost ParseIP u hp) p in
  (PathWithQueryFragment w).1 = p /\ HostWithPort (hostInfo w) = hp.
Proof.
  intros hp u Hu Hd Hm Hprt Hp w.
  destruct (ChangeHost_located u0 raw d prt Hu Hd Hm Hprt)
    as (pre & hst & rest & Hch & Hloc & Hpm & Hhp).
  unfold w, u, hp. rewrite Hch.
  by apply ChangePath_located.
Qed.

Lemma hasPortFuncByte_bracket_end (a : bytes) : hasPortFuncByte (a ++ ["]"%char]) = false.
Proof.
  unfold hasPortFuncByte. rewrite !LastIndexByte_app. simpl.
  pose proof (LastIndexByte_lt a ":"). lia.
Qed.

(** An empty domain comes out of a non-empty string only past the port
    separator: either [net.SplitHostPort] gave an empty host, and then only
    domain and port were assigned, or it failed, and then everything was
    reset. *)
Lemma ParseHostWithPort_no_domain h (s : bytes) (isHTTPS : bool) :
  let h' := ParseHostWithPort ParseIP h s isHTTPS in
  s <> [] -> domain h' = [] ->
  hasPortFuncByte s = true /\
  match SplitHostPort s with
  | inl (d, p) =>
      d = [] /\ h' = mkHostInfo [] (ip h) p (hostWithPort h) (targetWithPort h)
  | inr _ => h' = mkHostInfo [] None [] [] []
  end.
Proof.
  unfold ParseHostWithPort. intros Hs.
  rewrite (len_eqb_false s Hs).
  destruct (hasPortFuncByte s); simpl.
  - destruct (SplitHostPort s) as [[d p] | why]; simpl; [|done].
    destruct (len d =? 0) eqn:E; simpl.
    + apply len_eqb_nil in E. subst d. done.
    + intros ->. done.
  - rewrite (len_eqb_false s Hs). simpl. done.
Qed.

(** C7 (as the code has it).  For a non-empty string given to
    [ParseHostWithPort]: the string has a port exactly when a [':'] comes
    after its last [']'], which is how a bracketed IPv6 literal is told
    from a port; without a port the whole string is the domain and the
    port is "443" for HTTPS/CONNECT and "80" otherwise; a bracketed literal
    alone takes the default port and one followed by [:port] is split
    there; and hostWithPort is domain + ":" + port whenever the domain that
    comes out is not empty.  The domain comes out empty only for a string
    with a port: either [net.SplitHostPort] returns an empty host, as for
    [":80"], and then the port is the one split off while ip, hostWithPort
    and targetWithPort are left as they were before the call; or
    [net.SplitHostPort] fails, as for ["a:b:c"], and then every field,
    hostWithPort included, is reset to empty. *)
Theorem ParseHostWithPort_spec h (s : bytes) (isHTTPS : bool) :
  s <> [] ->
  let h' := ParseHostWithPort ParseIP h s isHTTPS in
  let dflt := if isHTTPS then B "443" else B "80" in
  (hasPortFuncByte s = true <->
     exists a b, s = a ++ ":"%char :: b /\ (":"%char ∉ b) /\ ("]"%char ∉ b)) /\
  (hasPortFuncByte s = false ->
     domain h' = s /\ port h' = dflt /\ hostWithPort h' = s ++ B ":" ++ dflt) /\
  (forall a, s = "["%char :: a ++ ["]"%char] ->
     domain h' = s /\ port h' = dflt) /\
  (forall a p, s = "["%char :: a ++ "]"%char :: ":"%char :: p ->
     ("["%char ∉ a) -> ("]"%char ∉ a) ->
     (":"%char ∉ p) -> ("["%char ∉ p) -> ("]"%char ∉ p) ->
     domain h' = a /\ port h' = p) /\
  (domain h' <> [] -> hostWithPort h' = domain h' ++ B ":" ++ port h') /\
  (domain h' = [] ->
     hasPortFuncByte s = true /\
     match SplitHostPort s with
     | inl (d, p) =>
         d = [] /\
         h' = mkHostInfo [] (ip h) p (hostWithPort h) (targetWithPort h)
     | inr _ => h' = mkHostInfo [] None [] [] []
     end) /\
  (forall p, s = ":"%char :: p ->
     (":"%char ∉ p) -> ("["%char ∉ p) -> ("]"%char ∉ p) ->
     h' = mkHostInfo [] (ip h) p (hostWithPort h) (targetWithPort h)).
Proof.
  intros Hs h' dflt. split_and!.
  - apply hasPortFuncByte_true.
  - intros Hp.
    destruct (ParseHostWithPort_default h s isHTTPS Hs Hp) as (? & ? & ? & _). done.
  - intros a ->.
    destruct (ParseHostWithPort_default h _ isHTTPS Hs
                (hasPortFuncByte_bracket_end ("["%char :: a))) as (? & ? & _). done.
  - intros a p -> Ha1 Ha2 Hp1 Hp2 Hp3. unfold h', ParseHostWithPort.
    rewrite len_eqb_cons.
    assert (Hp : hasPortFuncByte ("["%char :: a ++ "]"%char :: ":"%char :: p) = true).
    { apply hasPortFuncByte_true. exists ("["%char :: a ++ ["]"%char]), p.
      split_and!; [|done..]. simpl. by rewrite <- app_assoc. }
    rewrite Hp, SplitHostPort_bracket by done. simpl.
    destruct (len a =? 0); done.
  - by apply ParseHostWithPort_domain.
  - by apply ParseHostWithPort_no_domain.
  - intros p -> Hp1 Hp2 Hp3. unfold h', ParseHostWithPort.
    rewrite len_eqb_cons.
    assert (Hp : hasPortFuncByte (":"%char :: p) = true).
    { apply hasPortFuncByte_true. exists [], p. done. }
    pose proof (SplitHostPort_plain [] p) as Hsplit. simpl app in Hsplit.
    rewrite Hp, Hsplit by (done || apply not_elem_of_nil).
    done.
Qed.

End Proofs.

(** C7, as stated, fails on [":80"]: the domain is empty, the port is
    "80", and hostWithPort is not ":80": it stays empty on a fresh
    [HostInfo], and on one that held ["old:1"] it stays ["old:1"]. *)
Lemma ParseHostWithPort_empty_domain :
  let h' := ParseHostWithPort (fun _ => @None unit)
              (mkHostInfo [] None [] [] []) (B ":80") false in
  let k' := ParseHostWithPort (fun _ => @None unit)
              (mkHostInfo (B "old") None (B "1") (B "old:1") (B "old:1"))
              (B ":80") false in
  B ":80" <> [] /\ domain h' = [] /\ port h' = B "80" /\
  hostWithPort h' = [] /\
  hostWithPort h' <> domain h' ++ B ":" ++ port h' /\
  domain k' = [] /\ port k' = B "80" /\ hostWithPort k' = B "old:1" /\
  hostWithPort k' <> domain k' ++ B ":" ++ port k'.
Proof. vm_compute. split_and!; done. Qed.

(** C1, as stated, fails: a host without port comes back with the default
    port and a path without leading slash comes back with one; a CONNECT
    URI has no path at all; a domain of letters and digits only is taken
    for a scheme; a host whose bytes also occur in the scheme is replaced
    at the wrong place; and a bracketed literal loses its brackets. *)
Lemma ChangeHost_ChangePath_fails :
  let parse b s := Parse (fun _ => @None unit) zero b (B s) in
  let change u h p :=
    ChangePathWithFragment (fun _ => @None unit)
      (ChangeHost (fun _ => @None unit) u (B h)) (B p) in
  let result (w : URI unit) :=
    ((PathWithQueryFragment w).1, HostWithPort (hostInfo w)) in
  result (change (parse false "http://a.b/x") "example.com" "index.html")
    = (B "/index.html", B "example.com:80") /\
  result (change (parse true "a.b:443") "c.d:443" "/x") = ([], B "c.d:443") /\
  result (change (parse false "/") "localhost:8080" "/x") = (B "/x", B "8080:80") /\
  result (change (parse false "http://p/x") "a.b:80" "/y") = (B "/y", []) /\
  result (change (parse false "/") "[::1]:8080" "/x") = (B "/x", B "::1:8080") /\
  ~ (result (change (parse false "http://a.b/x") "example.com" "index.html")
       = (B "index.html", B "example.com")).
Proof. vm_compute. split_and!; try reflexivity. discriminate. Qed.

Lemma ChangeHost_ChangePath_witness :
  let u := Parse (fun _ => @None unit) zero false (B "http://a.b/x?q") in
  let w := ChangePathWithFragment (fun _ => @None unit)
             (ChangeHost (fun _ => @None unit) u (B "example.com:8080"))
             (B "/index.html?k=v#f") in
  (PathWithQueryFragment w).1 = B "/index.html?k=v#f" /\
  HostWithPort (hostInfo w) = B "example.com:8080".
Proof.
  apply (ChangeHost_ChangePath (fun _ => @None unit) zero (B "http://a.b/x?q")
           (B "example.com") (B "8080") (B "/index.html?k=v#f"));
    [right; right; reflexivity | reflexivity ..].
Defined.

Lemma Parse_scheme_recognized_witness :
  scheme (Parse (fun _ => @None unit) zero false (B "http://a.b/x")) = B "http" /\
  getSchemeIndex (B "http://a.b/x") = 4.
Proof.
  apply (proj1 (Parse_scheme_recognized (fun _ => @None unit) zero (B "http://a.b/x"))
           (B "http") (B "//a.b/x"));
    [done | repeat constructor | reflexivity].
Defined.

(** C3, as stated, fails on the empty target: [Parse] returns before the
    default is applied and the path stays empty. *)
Lemma Parse_empty_path :
  path (Parse (fun _ => @None unit) zero false []) = [] /\
  path (Parse (fun _ => @None unit) zero false []) <> B "/".
Proof. split; [reflexivity | discriminate]. Qed.

Lemma Parse_path_default_witness :
  B "example.com" <> [] /\
  host (Parse (fun _ => @None unit) zero false (B "example.com")) = B "example.com" /\
  path (Parse (fun _ => @None unit) zero false (B "example.com")) = B "/".
Proof.
  split; [done|].
  apply (Parse_path_default (fun _ => @None unit) zero (B "example.com") ltac:(done));
    [compute_done .. | reflexivity].
Defined.

(** C5, as stated, fails on ["http://h/p"]: were one slash left, the
    remainder ["/h/p"] would be all path, as it is for ["http:/h/p"]; the
    code leaves none and finds the host ["h"]. *)
Lemma Parse_double_slash_leaves_none :
  let v := Parse (fun _ => @None unit) zero false (B "http://h/p") in
  let one := Parse (fun _ => @None unit) zero false (B "http:/h/p") in
  host v = B "h" /\ path v = B "/p" /\
  host one = [] /\ path one = B "/h/p" /\
  ~ (host v = host one /\ path v = path one).
Proof. vm_compute. split_and!; try reflexivity. intros [? _]. discriminate. Qed.

Lemma Parse_double_slash_witness :
  let v := Parse (fun _ => @None unit) zero false (B "http:///h/p?q") in
  let w := Parse (fun _ => @None unit) zero false (B "http:h/p?q") in
  scheme v = scheme w /\ host v = host w /\ path v = path w /\
  queries v = queries w /\ fragments v = fragments w /\ hostInfo v = hostInfo w.
Proof.
  apply (Parse_double_slash (fun _ => @None unit) zero false (B "http") (B "h/p?q") 3);
    [done | repeat constructor | lia | done].
Defined.

Lemma ParseHostWithPort_spec_witness :
  B "example.com" <> [] /\
  let h' := ParseHostWithPort (fun _ => @None unit)
              (mkHostInfo [] None [] [] []) (B "example.com") true in
  domain h' = B "example.com" /\ port h' = B "443" /\
  hostWithPort h' = B "example.com:443".
Proof.
  split; [done|].
  exact (proj1 (proj2 (ParseHostWithPort_spec (fun _ => @None unit)
                         (mkHostInfo [] None [] [] []) (B "example.com") true
                         ltac:(done))) eq_refl).
Defined.

Lemma ParseHostWithPort_split_error_witness :
  hasPortFuncByte (B "a:b:c") = true /\
  ParseHostWithPort (fun _ => @None unit)
    (mkHostInfo (B "old") None (B "1") (B "old:1") (B "old:1")) (B "a:b:c") false
  = mkHostInfo [] None [] [] [].
Proof.
  split; [reflexivity|].
  apply (ParseHostWithPort_split_error (fun _ => @None unit) _ (B "a:b:c") false
           (B "too many colons in address")); reflexivity.
Defined.

End URIProofs.

(** ** Properties of package [transport] *)
Module DialerProofs.
Import Go Spec GoLemmas transport.

Section Proofs.
Variable env : Env.

Lemma resolveTCPAddrs_frame (addr : bytes) (st : State) :
  dialer (resolveTCPAddrs env addr st).2 = dialer st /\
  trace (resolveTCPAddrs env addr st).2 = Resolve addr :: trace st.
Proof.
  unfold resolveTCPAddrs.
  destruct (SplitHostPort addr) as [[hst portS] | why]; [|done].
  destruct (Atoi portS) as [prt|]; [|done].
  simpl. destruct (LookupIP env hst (clock st)) as [d [ips | e]]; [|done].
  case_match; done.
Qed.

(** A resolution that succeeds returns at least one address. *)
Lemma resolveTCPAddrs_nonempty (addr : bytes) (st : State) resolved :
  (resolveTCPAddrs env addr st).1 = inl resolved -> resolved <> [].
Proof.
  unfold resolveTCPAddrs.
  destruct (SplitHostPort addr) as [[hst portS] | why]; [|done].
  destruct (Atoi portS) as [prt|]; [|done].
  simpl. destruct (LookupIP env hst (clock st)) as [d [ips | e]]; [|done].
  destruct (len _ =? 0) eqn:E; [done|]. simpl. intros [= <-] Hn.
  rewrite Hn in E. done.
Qed.

(** The critical section of a failed resolution never removes or
    redirects a key of the map, whatever happened since the lookup. *)
Lemma clearPending_map (addr : bytes) (st : State) :
  tcpAddrsMap (dialer (clearPending addr st)) = tcpAddrsMap (dialer st).
Proof.
  unfold clearPending. simpl.
  destruct (tcpAddrsMap (dialer st) !! addr) as [p|]; [|done].
  case_match; done.
Qed.

(** C9. For a cached entry older than [DefaultDNSCacheDuration] and not
    pending, [getTCPAddrs] marks the entry pending inside its first
    critical section, returns no entry from it, and resolves again after
    unlocking.  If that resolution fails the pending flag is cleared, the
    error is returned and the map still holds the old entry; if it
    succeeds a new entry replaces the old one in the map. *)
Theorem getTCPAddrs_stale (addr : bytes) (st : State) (p : nat) (e : tcpAddrEntry) :
  tcpAddrsMap (dialer st) !! addr = Some p ->
  heap (dialer st) !! p = Some e ->
  pending e = false ->
  DefaultDNSCacheDuration < clock st - resolveTime e ->
  let st1 := (lookupEntry addr st).2 in
  let r := (resolveTCPAddrs env addr st1).1 in
  let st2 := (resolveTCPAddrs env addr st1).2 in
  (lookupEntry addr st).1 = None /\
  heap (dialer st1) !! p = Some (mkEntry (addrs e) (addrsIdx e) (resolveTime e) true) /\
  tcpAddrsMap (dialer st1) = tcpAddrsMap (dialer st) /\
  trace st2 = Resolve addr :: Unlock :: Lock :: trace st /\
  match r with
  | inr err =>
      let st3 := clearPending addr st2 in
      getTCPAddrs env addr st = (([], 0, Some err), st3) /\
      tcpAddrsMap (dialer st3) = tcpAddrsMap (dialer st) /\
      heap (dialer st3) !! p = Some e /\
      trace st3 = Unlock :: Lock :: trace st2
  | inl resolved =>
      exists p' st3,
        getTCPAddrs env addr st = ((resolved, 1, None), st3) /\
        p' <> p /\
        tcpAddrsMap (dialer st3) = <[addr := p']> (tcpAddrsMap (dialer st)) /\
        heap (dialer st3) !! p' = Some (mkEntry resolved 1 (clock st2) false) /\
        trace st3 = Unlock :: Lock :: trace st2
  end.
Proof.
  intros Hm Hh Hpend Hold st1 r st2.
  assert (Hl : lookupEntry addr st =
    (None, mkState (mkDialer (tcpAddrsMap (dialer st))
             (<[p := mkEntry (addrs e) (addrsIdx e) (resolveTime e) true]>
                (heap (dialer st))))
             (clock st) (Unlock :: Lock :: trace st))).
  { unfold lookupEntry. simpl. rewrite Hm.
    rewrite (lookup_total_correct _ _ _ Hh), Hpend.
    destruct (DefaultDNSCacheDuration <? clock st - resolveTime e) eqn:E; [done|lia]. }
  destruct (resolveTCPAddrs_frame addr st1) as [Hd Ht].
  fold st2 in Hd, Ht.
  assert (Hst1 : st1 = (lookupEntry addr st).2) by done.
  rewrite Hl in Hst1. simpl in Hst1.
  split_and!.
  - by rewrite Hl.
  - rewrite Hst1. simpl. apply lookup_insert_eq.
  - by rewrite Hst1.
  - rewrite Ht, Hst1. done.
  - unfold getTCPAddrs. rewrite Hl.
    rewrite <- Hst1.
    destruct (resolveTCPAddrs env addr st1) as [r' st2'] eqn:Hr.
    simpl in r, st2. subst r st2.
    destruct r' as [resolved | err].
    + (* the resolution succeeds *)
      set (p' := fresh (dom (heap (dialer st2')))).
      assert (Hfresh : p' ∉ dom (heap (dialer st2'))) by apply is_fresh.
      assert (Hp : p' <> p).
      { intros ->. apply Hfresh. rewrite Hd, Hst1. simpl.
        apply elem_of_dom. rewrite lookup_insert_eq. eauto. }
      exists p', (addIdx p' (storeEntry addr resolved st2').2).2.
      unfold storeEntry, addIdx. simpl. fold p'.
      rewrite !lookup_total_insert_eq. simpl.
      split_and!; [reflexivity | done | | |].
      * simpl. rewrite Hd, Hst1. done.
      * simpl. rewrite lookup_insert_eq. done.
      * done.
    + (* the resolution fails *)
      split_and!; [done | | |].
      * rewrite clearPending_map, Hd, Hst1. done.
      * unfold clearPending. simpl. rewrite Hd, Hst1. simpl. rewrite Hm.
        rewrite lookup_total_insert_eq. simpl. rewrite lookup_insert_eq.
        destruct e; simpl in *; by subst.
      * unfold clearPending. simpl. done.
Qed.

(** *** The dial loop *)

(** An attempt that times out ends the loop with [ErrDialTimeout]. *)
Lemma dialLoop_timeout addrs deadline n idx err st conn st' :
  tryDial env (nth (Z.to_nat (idx mod Z.of_nat (S n))) addrs (mkTCPAddr [] 0))
    deadline st = ((conn, Some ErrDialTimeout), st') ->
  dialLoop env addrs deadline (S n) idx err st = ((None, Some ErrDialTimeout), st').
Proof. intros H. simpl. rewrite H. done. Qed.

(** An attempt that succeeds ends the loop with its connection. *)
Lemma dialLoop_connected addrs deadline n idx err st conn st' :
  tryDial env (nth (Z.to_nat (idx mod Z.of_nat (S n))) addrs (mkTCPAddr [] 0))
    deadline st = ((conn, None), st') ->
  dialLoop env addrs deadline (S n) idx err st = ((conn, None), st').
Proof. intros H. simpl. rewrite H. done. Qed.

(** Any other error moves on, with the index incremented and the count
    of remaining attempts, which is also the modulus, decremented. *)
Lemma dialLoop_next addrs deadline n idx err st conn e st' :
  tryDial env (nth (Z.to_nat (idx mod Z.of_nat (S n))) addrs (mkTCPAddr [] 0))
    deadline st = ((conn, Some e), st') ->
  e <> ErrDialTimeout ->
  dialLoop env addrs deadline (S n) idx err st =
  dialLoop env addrs deadline n (uint32 (idx + 1)) (Some e) st'.
Proof. intros H He. simpl. rewrite H. by rewrite bool_decide_eq_false_2. Qed.

(** When every address refuses at once, the loop dials the addresses at
    [tried n idx], in that order, and returns the last refusal. *)
Lemma dialLoop_all_refused addrs deadline n idx err st :
  (forall t, slotWait env t = Some 0) ->
  (forall a t, exists e, DialTCP env a t = (0, inr e)) ->
  clock st < deadline ->
  let r := dialLoop env addrs deadline n idx err st in
  r.1.1 = None /\
  trace r.2 = rev (dialEvents addrs (tried n idx)) ++ trace st /\
  clock r.2 = clock st /\
  (n <> 0%nat -> exists e, r.1.2 = Some (NetError e)).
Proof.
  intros Hslot Hdial. revert idx err st.
  induction n as [|n IH]; intros idx err st Hclock; [done|].
  set (a := nth (Z.to_nat (idx mod Z.of_nat (S n))) addrs (mkTCPAddr [] 0)).
  destruct (Hdial a (clock st)) as [e He].
  assert (Ht : tryDial env a deadline st =
               ((None, Some (NetError e)), advance 0 (log (Dial a) st))).
  { unfold tryDial. simpl.
    destruct (deadline - clock st <=? 0) eqn:E; [lia|].
    rewrite Hslot. simpl. rewrite E, He.
    destruct (0 <? deadline - clock st) eqn:E'; [done|lia]. }
  intros r. unfold r. rewrite (dialLoop_next _ _ _ _ _ _ _ _ _ Ht) by done.
  specialize (IH (uint32 (idx + 1)) (Some (NetError e))
                 (advance 0 (log (Dial a) st))).
  destruct IH as (H1 & H2 & H3 & H4); [simpl; lia|].
  split_and!.
  - done.
  - rewrite H2. simpl. fold a. rewrite <- app_assoc. done.
  - rewrite H3. simpl. lia.
  - intros _. destruct n as [|n']; [simpl; eauto | apply H4; done].
Qed.

End Proofs.

Lemma getTCPAddrs_stale_witness :
  let env := mkEnv (fun _ _ => (0, inr 7)) (fun _ => Some 0) (fun _ _ => (0, inr 111)) in
  let e := mkEntry [mkTCPAddr (B "10.0.0.1") 80] 5 0 false in
  let st := mkState (mkDialer {[ B "example.com:80" := 0%nat ]} {[ 0%nat := e ]})
              (100 * 1000000000) [] in
  (lookupEntry (B "example.com:80") st).1 = None.
Proof.
  intros env e st.
  exact (proj1 (getTCPAddrs_stale env (B "example.com:80") st 0%nat e
                  eq_refl eq_refl eq_refl ltac:(vm_compute; reflexivity))).
Defined.

(** C8, the code at the failing input.  A host resolves to two addresses,
    the first refusing connections and the second accepting them.  The
    first dial starts at index 1 and connects to the second address.  The
    next dial starts at index 2: it dials the first address, then with
    index 3 and modulus 1 the first address again, and gives up with its
    error; the second address is not dialed (the events are listed latest
    first). *)
Theorem newDial_skips_address :
  let st := mkState (mkDialer ∅ ∅) 0 [] in
  let timeout := 5000000000 in
  let first := newDial env01 timeout (B "example.com:80") st in
  let second := newDial env01 timeout (B "example.com:80") first.2 in
  first.1 = (Some (mkConn A1), None) /\
  (getTCPAddrs env01 (B "example.com:80") first.2).1 = ([A0; A1], 2, None) /\
  second.1 = (None, Some (NetError 111)) /\
  trace second.2 = [Dial A0; Dial A0; Unlock; Lock] ++ trace first.2 /\
  tried 2 2 = [0%nat; 0%nat].
Proof. vm_compute. done. Qed.

End DialerProofs.
